(** * abTEM contrast transfer function: [abtem/transfer.py]

    A shallow embedding of the aberration mathematics, the parameter store
    and the cached grid evaluation of the [CTF] class, with the properties
    of the specification stated and settled against it.

    Conventions of the embedding.
    - Floating-point numbers are idealised as real numbers ([R]).  The only
      non-real value the source relies on, [np.inf] as the default
      semiangle cutoff, is kept explicitly ([xfloat]).  The division of a
      number by a zero wavelength raises, as it does for Python floats;
      the division of an array by zero, which numpy performs with a
      warning, is left to the quotient of real numbers, and nothing is
      stated about it.
    - Arrays are flattened to lists; element-wise operations between two
      arrays pair the elements position by position.  Arrays of different
      shapes, which numpy broadcasts or rejects, are outside the model:
      the statements that combine [alpha] and [phi] take them of one
      length.
    - Python dictionaries are [gmap string R]; the argument of
      [set_parameters], which is iterated in insertion order, is a list of
      (name, value) pairs.
    - Exceptions are an error monad; methods that mutate the object pass
      the object explicitly and return the possibly mutated object next to
      the result, since a raised exception does not undo earlier writes. *)

From Stdlib Require Import Reals Lra Lia.
From stdpp Require Import base strings list gmap.

Open Scope string_scope.
Open Scope list_scope.
Open Scope R_scope.

(** ** Exceptions *)

Inductive exn : Type :=
  | KeyError (key : string)
  | ValueError (msg : string)
  | ZeroDivisionError
  | RuntimeError (msg : string)
  | AttributeError (name : string).

Inductive result (A : Type) : Type :=
  | Ok (a : A)
  | Raise (e : exn).
Arguments Ok {A} a.
Arguments Raise {A} e.

#[global] Instance result_ret : MRet result := fun A a => Ok a.

#[global] Instance result_bind : MBind result := fun A B k m =>
  match m with
  | Ok a => k a
  | Raise e => Raise e
  end.

(** ** Numbers and arrays *)

#[global] Instance R_eq_dec : EqDecision R := Req_dec_T.
#[global] Instance Rlt_decision (x y : R) : Decision (x < y) := Rlt_dec x y.

(** A float that may be [np.inf]. *)
Inductive xfloat : Type :=
  | Finite (x : R)
  | PosInf.

(** [a < c] for a finite [a] and a bound [c] that may be infinite. *)
Definition xlt (a : R) (c : xfloat) : Prop :=
  match c with
  | Finite c => a < c
  | PosInf => True
  end.

#[global] Instance xlt_decision (a : R) (c : xfloat) : Decision (xlt a c).
Proof. destruct c; simpl; apply _. Defined.

#[global] Instance xfloat_eq_dec : EqDecision xfloat.
Proof. solve_decision. Defined.

(** [c < np.inf] *)
Definition below_inf (c : xfloat) : bool :=
  match c with
  | Finite _ => true
  | PosInf => false
  end.

(** Modelled from the spec: [abtem.config.DTYPE] is the floating type of
    the arrays; with real numbers in the place of floats the cast to it is
    the identity. *)
Definition DTYPE (x : R) : R := x.

(** [np.sign] *)
Definition sign (x : R) : R :=
  if decide (x < 0) then -1 else if decide (x = 0) then 0 else 1.

(** Scalar division: a zero divisor raises for Python floats and gives
    [inf] or [nan] for numpy scalars; neither is a real number. *)
Definition divide (x y : R) : result R :=
  if decide (y = 0) then Raise ZeroDivisionError else Ok (x / y).

(** Complex numbers as the backend stores them. *)
Record complex : Type := Complex { re : R; im : R }.

(** [array *= factor] for a complex array and a real one. *)
Definition scale (z : complex) (x : R) : complex :=
  {| re := re z * x; im := im z * x |}.

(** Modelled from the spec: [abtem.cpu_kernels.complex_exponential], the
    element-wise complex exponential [exp(i x)]. *)
Definition complex_exponential (x : list R) : list complex :=
  map (fun t => {| re := cos t; im := sin t |}) x.

(** [np.arctan2(y, x)] on real arguments. *)
Definition arctan2 (y x : R) : R :=
  if decide (0 < x) then atan (y / x)
  else if decide (x < 0) then
    (if decide (y < 0) then atan (y / x) - PI else atan (y / x) + PI)
  else if decide (0 < y) then PI / 2
  else if decide (y < 0) then - (PI / 2)
  else 0.

(** ** Module-level tables *)

Definition polar_symbols : list string :=
  [ "C10"; "C12"; "phi12";
    "C21"; "phi21"; "C23"; "phi23";
    "C30"; "C32"; "phi32"; "C34"; "phi34";
    "C41"; "phi41"; "C43"; "phi43"; "C45"; "phi45";
    "C50"; "C52"; "phi52"; "C54"; "phi54"; "C56"; "phi56" ].

Definition polar_aliases : list (string * string) :=
  [ ("defocus", "C10"); ("astigmatism", "C12"); ("astigmatism_angle", "phi12");
    ("coma", "C21"); ("coma_angle", "phi21");
    ("Cs", "C30");
    ("C5", "C50") ].

(** [polar_aliases[symbol]] and [symbol in polar_aliases.keys()]. *)
Fixpoint assoc (k : string) (l : list (string * string)) : option string :=
  match l with
  | [] => None
  | (k', v) :: l' => if decide (k = k') then Some v else assoc k l'
  end.

Definition alias_of (symbol : string) : option string := assoc symbol polar_aliases.

(** ** The parameter store and [CTF.set_parameters] *)

(** [dict(zip(polar_symbols, [0.] * len(polar_symbols)))] *)
Definition initial_parameters : gmap string R :=
  list_to_map (zip polar_symbols (replicate (length polar_symbols) 0)).

(** The message of the [ValueError] raised for an unknown name. *)
Definition not_recognized (symbol : string) : string :=
  (symbol ++ " not a recognized parameter")%string.

(** One iteration of the loop of [set_parameters]: the store after the
    iteration, or the exception that leaves the store as it was. *)
Definition set_parameter (store : gmap string R) (symbol : string) (value : R)
  : result (gmap string R) :=
  if decide (is_Some (store !! symbol)) then
    Ok (<[symbol := value]> store)
  else if decide (symbol = "defocus") then
    match alias_of symbol with
    | Some target => Ok (<[target := - value]> store)
    | None => Raise (KeyError symbol)
    end
  else
    match alias_of symbol with
    | Some target => Ok (<[target := value]> store)
    | None => Raise (ValueError (not_recognized symbol))
    end.

(** The loop over [parameters.items()].  The store is mutated in place, so
    the store reached when an exception is raised is returned with it. *)
Fixpoint set_parameters_loop (store : gmap string R) (parameters : list (string * R))
  : gmap string R * result unit :=
  match parameters with
  | [] => (store, Ok tt)
  | (symbol, value) :: rest =>
      match set_parameter store symbol value with
      | Ok store' => set_parameters_loop store' rest
      | Raise e => (store, Raise e)
      end
  end.

(** ** Reading a parameter mapping *)

(** [parameters[key]] once the key is known to be present. *)
Definition item (parameters : gmap string R) (key : string) : R :=
  default 0 (parameters !! key).

(** The [KeyError] of the first absent key among those an expression
    reads, in the order in which the expression reads them. *)
Fixpoint require (parameters : gmap string R) (keys : list string) : result unit :=
  match keys with
  | [] => Ok tt
  | key :: keys' =>
      match parameters !! key with
      | Some _ => require parameters keys'
      | None => Raise (KeyError key)
      end
  end.

(** [any([parameters[symbol] != 0. for symbol in symbols])] *)
Definition any_nonzero (parameters : gmap string R) (symbols : list string) : result bool :=
  _ ← require parameters symbols;
  mret (existsb (fun symbol => bool_decide (item parameters symbol <> 0)) symbols).

(** ** Aberration mathematics *)

Definition calculate_symmetric_chi (alpha : list R) (wavelength : R)
    (parameters : gmap string R) : result (list R) :=
  let p := item parameters in
  k ← divide (2 * PI) wavelength;
  _ ← require parameters ["C10"; "C30"; "C50"];
  mret (map (fun a =>
               let alpha2 := a ^ 2 in
               k * (1 / 2 * alpha2 * p "C10" +
                    1 / 4 * alpha2 ^ 2 * p "C30" +
                    1 / 6 * alpha2 ^ 3 * p "C50")) alpha).

(** [array += term], where [term] is built element by element from
    [alpha] and [phi]. *)
Definition add_term (array : list R) (term : R -> R -> R) (alpha phi : list R) : list R :=
  zip_with Rplus array (zip_with term alpha phi).

(** One [if any([parameters[symbol] != 0. for symbol in tested]):
    array += term] block; [used] are the keys the term reads. *)
Definition order_group (parameters : gmap string R) (tested used : list string)
    (term : R -> R -> R) (alpha phi : list R) (array : list R) : result (list R) :=
  nonzero ← any_nonzero parameters tested;
  if (nonzero : bool) then
    _ ← require parameters used;
    mret (add_term array term alpha phi)
  else mret array.

(** The right-hand sides of the five [array += ...] statements of
    [calculate_polar_chi], at one element [a] of [alpha] and [f] of [phi]. *)
Definition order1 (p : string -> R) (a f : R) : R :=
  let alpha2 := a ^ 2 in
  1 / 2 * alpha2 *
  (p "C10" +
   p "C12" * cos (2 * (f - p "phi12"))).

Definition order2 (p : string -> R) (a f : R) : R :=
  let alpha2 := a ^ 2 in
  1 / 3 * alpha2 * a *
  (p "C21" * cos (f - p "phi21") +
   p "C23" * cos (3 * (f - p "phi23"))).

Definition order3 (p : string -> R) (a f : R) : R :=
  let alpha2 := a ^ 2 in
  1 / 4 * alpha2 ^ 2 *
  (p "C30" +
   p "C32" * cos (2 * (f - p "phi32")) +
   p "C34" * cos (4 * (f - p "phi34"))).

Definition order4 (p : string -> R) (a f : R) : R :=
  let alpha2 := a ^ 2 in
  1 / 5 * alpha2 ^ 2 * a *
  (p "C41" * cos (f - p "phi41") +
   p "C43" * cos (3 * (f - p "phi43")) +
   p "C45" * cos (5 * (f - p "phi45"))).

Definition order5 (p : string -> R) (a f : R) : R :=
  let alpha2 := a ^ 2 in
  1 / 6 * alpha2 ^ 3 *
  (p "C50" +
   p "C52" * cos (2 * (f - p "phi52")) +
   p "C54" * cos (4 * (f - p "phi54")) +
   p "C56" * cos (6 * (f - p "phi56"))).

Definition calculate_polar_chi (alpha phi : list R) (wavelength : R)
    (parameters : gmap string R) : result (list R) :=
  let p := item parameters in
  let array := replicate (length alpha) (DTYPE 0) in
  array ← order_group parameters
    ["C10"; "C12"; "phi12"]
    ["C10"; "C12"; "phi12"]
    (order1 p) alpha phi array;
  array ← order_group parameters
    ["C21"; "phi21"; "C23"; "phi23"]
    ["C21"; "phi21"; "C23"; "phi23"]
    (order2 p) alpha phi array;
  array ← order_group parameters
    ["C30"; "C32"; "phi32"; "C34"; "phi34"]
    ["C30"; "C32"; "phi32"; "C34"; "phi34"]
    (order3 p) alpha phi array;
  array ← order_group parameters
    ["C41"; "phi41"; "C43"; "phi43"; "C45"; "phi41"]
    ["C41"; "phi41"; "C43"; "phi43"; "C45"; "phi45"]
    (order4 p) alpha phi array;
  array ← order_group parameters
    ["C50"; "C52"; "phi52"; "C54"; "phi54"; "C56"; "phi56"]
    ["C50"; "C52"; "phi52"; "C54"; "phi54"; "C56"; "phi56"]
    (order5 p) alpha phi array;
  k ← divide (2 * PI) wavelength;
  mret (map (fun x => k * x) array).

Definition calculate_symmetric_aberrations (alpha : list R) (wavelength : R)
    (parameters : gmap string R) : result (list complex) :=
  chi ← calculate_symmetric_chi alpha wavelength parameters;
  mret (complex_exponential (map Ropp chi)).

Definition calculate_polar_aberrations (alpha phi : list R) (wavelength : R)
    (parameters : gmap string R) : result (list complex) :=
  chi ← calculate_polar_chi alpha phi wavelength parameters;
  mret (complex_exponential (map Ropp chi)).

Definition calculate_aperture (alpha : list R) (cutoff : xfloat) (rolloff : R) : list R :=
  if decide (0 < rolloff) then
    match cutoff with
    | Finite cutoff =>
        let rolloff := rolloff * cutoff in
        (* where the quotient has a zero divisor the element is replaced
           by one of the two assignments below *)
        let array :=
          map (fun a => 0.5 * (1 + cos (PI * (a - cutoff + rolloff) / rolloff))) alpha in
        let array := zip_with (fun a x => if decide (cutoff < a) then 0 else x) alpha array in
        zip_with (fun a x => if decide (cutoff - rolloff < a) then x else DTYPE 1) alpha array
    | PosInf =>
        (* rolloff and cutoff - rolloff are inf and nan: both comparisons
           are false everywhere and every element is taken from the ones *)
        map (fun _ => DTYPE 1) alpha
    end
  else
    map (fun a => DTYPE (if decide (xlt a cutoff) then 1 else 0)) alpha.

Definition calculate_temporal_envelope (alpha : list R) (wavelength focal_spread : R)
  : result (list R) :=
  k ← divide (0.5 * PI) wavelength;
  mret (map (fun a => DTYPE (exp (- (k * focal_spread * a ^ 2) ^ 2))) alpha).

(** The quotient is taken on the array, which numpy divides without
    raising: no exception comes out of this function.  At a wavelength of
    zero numpy's entries are 0 or nan, which the quotient of real numbers
    does not describe; the statements about this function take a nonzero
    wavelength. *)
Definition calculate_gaussian_envelope (alpha : list R) (wavelength gaussian_spread : R)
  : list R :=
  map (fun a => DTYPE (exp (- 0.5 * gaussian_spread ^ 2 * a ^ 2 / wavelength ^ 2))) alpha.

(** The two gradient expressions of [calculate_spatial_envelope] at one
    element, after the factor [k = 2 * np.pi / wavelength]. *)
Definition dchi_dk (p : string -> R) (k a f : R) : R :=
  k * (
    (p "C12" * cos (2 * (f - p "phi12")) + p "C10") * a +
    (p "C23" * cos (3 * (f - p "phi23")) +
     p "C21" * cos (1 * (f - p "phi21"))) * a ^ 2 +
    (p "C34" * cos (4 * (f - p "phi34")) +
     p "C32" * cos (2 * (f - p "phi32")) + p "C30") * a ^ 3 +
    (p "C45" * cos (5 * (f - p "phi45")) +
     p "C43" * cos (3 * (f - p "phi43")) +
     p "C41" * cos (1 * (f - p "phi41"))) * a ^ 4 +
    (p "C56" * cos (6 * (f - p "phi56")) +
     p "C54" * cos (4 * (f - p "phi54")) +
     p "C52" * cos (2 * (f - p "phi52")) + p "C50") * a ^ 5).

Definition dchi_dphi (p : string -> R) (k' a f : R) : R :=
  k' * (
    1 / 2 * (2 * p "C12" * sin (2 * (f - p "phi12"))) * a +
    1 / 3 * (3 * p "C23" * sin (3 * (f - p "phi23")) +
             1 * p "C21" * sin (1 * (f - p "phi21"))) * a ^ 2 +
    1 / 4 * (4 * p "C34" * sin (4 * (f - p "phi34")) +
             2 * p "C32" * sin (2 * (f - p "phi32"))) * a ^ 3 +
    1 / 5 * (5 * p "C45" * sin (5 * (f - p "phi45")) +
             3 * p "C43" * sin (3 * (f - p "phi43")) +
             1 * p "C41" * sin (1 * (f - p "phi41"))) * a ^ 4 +
    1 / 6 * (6 * p "C56" * sin (6 * (f - p "phi56")) +
             4 * p "C54" * sin (4 * (f - p "phi54")) +
             2 * p "C52" * sin (2 * (f - p "phi52"))) * a ^ 5).

(** The keys [calculate_spatial_envelope] reads, in reading order. *)
Definition spatial_envelope_keys : list string :=
  [ "C12"; "phi12"; "C10"; "C23"; "phi23"; "C21"; "phi21";
    "C34"; "phi34"; "C32"; "phi32"; "C30";
    "C45"; "phi45"; "C43"; "phi43"; "C41"; "phi41";
    "C56"; "phi56"; "C54"; "phi54"; "C52"; "phi52"; "C50" ].

Definition calculate_spatial_envelope (alpha phi : list R) (wavelength angular_spread : R)
    (parameters : gmap string R) : result (list R) :=
  let p := item parameters in
  k ← divide (2 * PI) wavelength;
  _ ← require parameters spatial_envelope_keys;
  k' ← divide (-2 * PI) wavelength;
  mret (zip_with (fun a f =>
                    exp (- sign angular_spread * (angular_spread / 2) ^ 2 *
                         (dchi_dk p k a f ^ 2 + dchi_dphi p k' a f ^ 2))) alpha phi).

(** ** Coefficient conversion *)

(** [K = np.sqrt(3 + np.sqrt(8.))] *)
Definition K : R := sqrt (3 + sqrt 8).

(** Both conversions read through [defaultdict(lambda: 0, ...)], which is
    [item]. *)
Definition polar2cartesian (polar : gmap string R) : gmap string R :=
  let polar := item polar in
  let cartesian : gmap string R := ∅ in
  let cartesian := <["C10" := polar "C10"]> cartesian in
  let cartesian := <["C12a" := - polar "C12" * cos (2 * polar "phi12")]> cartesian in
  let cartesian := <["C12b" := polar "C12" * sin (2 * polar "phi12")]> cartesian in
  let cartesian := <["C21a" := polar "C21" * sin (polar "phi21")]> cartesian in
  let cartesian := <["C21b" := polar "C21" * cos (polar "phi21")]> cartesian in
  let cartesian := <["C23a" := - polar "C23" * sin (3 * polar "phi23")]> cartesian in
  let cartesian := <["C23b" := polar "C23" * cos (3 * polar "phi23")]> cartesian in
  let cartesian := <["C30" := polar "C30"]> cartesian in
  let cartesian := <["C32a" := - polar "C32" * cos (2 * polar "phi32")]> cartesian in
  let cartesian := <["C32b" := polar "C32" * cos (PI / 2 - 2 * polar "phi32")]> cartesian in
  let cartesian := <["C34a" := polar "C34" * cos (-4 * polar "phi34")]> cartesian in
  let cartesian :=
    <["C34b" := 1 / 4 * (1 + K ^ 2) ^ 2 / (K ^ 3 - K) * polar "C34" *
                cos (4 * atan (1 / K) - 4 * polar "phi34")]> cartesian in
  cartesian.

Definition cartesian2polar (cartesian : gmap string R) : gmap string R :=
  let cartesian := item cartesian in
  let polar : gmap string R := ∅ in
  let polar := <["C10" := cartesian "C10"]> polar in
  let polar := <["C12" := - sqrt (cartesian "C12a" ^ 2 + cartesian "C12b" ^ 2)]> polar in
  let polar := <["phi12" := - arctan2 (cartesian "C12b") (cartesian "C12a") / 2]> polar in
  let polar := <["C21" := sqrt (cartesian "C21a" ^ 2 + cartesian "C21b" ^ 2)]> polar in
  let polar := <["phi21" := arctan2 (cartesian "C21a") (cartesian "C21b")]> polar in
  let polar := <["C23" := sqrt (cartesian "C23a" ^ 2 + cartesian "C23b" ^ 2)]> polar in
  let polar := <["phi23" := - arctan2 (cartesian "C23a") (cartesian "C23b") / 3]> polar in
  let polar := <["C30" := cartesian "C30"]> polar in
  let polar := <["C32" := - sqrt (cartesian "C32a" ^ 2 + cartesian "C32b" ^ 2)]> polar in
  let polar := <["phi32" := - arctan2 (cartesian "C32b") (cartesian "C32a") / 2]> polar in
  let polar := <["C34" := sqrt (cartesian "C34a" ^ 2 + cartesian "C34b" ^ 2)]> polar in
  let polar := <["phi34" := arctan2 (cartesian "C34b") (cartesian "C34a") / 4]> polar in
  polar.

(** ** Scherzer defocus *)

(** [scherzer_defocus(Cs, energy)].  [energy2wavelength] (abtem.utils) is
    not part of the file and is taken as a parameter; the square root of a
    negative number is [nan], for which there is no result. *)
Definition scherzer_defocus (energy2wavelength : R -> R) (Cs energy : R) : option R :=
  let radicand := Rabs Cs * energy2wavelength energy in
  if decide (radicand < 0) then None
  else Some (1.2 * sign Cs * sqrt radicand).

(** ** The CTF object *)

(** The reciprocal-space grid is an external collaborator: a value that
    can be compared (it is the cache key), can be undefined, and yields
    its two axes of spatial frequencies. *)
Class GridInterface (Grid : Type) : Type := {
  grid_eq_dec :: EqDecision Grid;
  check_is_defined : Grid -> bool;
  spatial_frequencies : Grid -> list R * list R
}.

Section CTF.

Context {Grid : Type} `{!GridInterface Grid}.

(** Modelled from the spec: [abtem.bases.Cache], a store of evaluated
    arrays keyed by the call's argument, holding at most [capacity]
    entries (most recent first) and evicting the oldest. *)
Record Cache : Type := mkCache {
  capacity : nat;
  entries : list (Grid * list complex)
}.

(** Modelled from the spec: the entry stored under a key, if any. *)
Definition cache_lookup (c : Cache) (key : Grid) : option (list complex) :=
  (fun found => snd (snd found)) <$> list_find (fun entry => fst entry = key) (entries c).

(** Modelled from the spec: storing an entry evicts the oldest ones beyond
    the capacity. *)
Definition cache_insert (c : Cache) (key : Grid) (value : list complex) : Cache :=
  mkCache (capacity c) (take (capacity c) ((key, value) :: entries c)).

(** Modelled from the spec: clearing drops every entry. *)
Definition cache_clear (c : Cache) : Cache := mkCache (capacity c) [].

(** Modelled from the spec: the observers of [abtem.bases.Event].  The
    only callback [transfer.py] registers is
    [cache_clear_callback(self.evaluate_on_grid)]. *)
Inductive callback : Type :=
  | cache_clear_callback.

Record Event : Type := mkEvent {
  callbacks : list callback;
  _notify_count : nat
}.

(** Modelled from the spec: the accelerator exposes the wavelength that
    belongs to its energy, and has none while the energy is unset. *)
Record Accelerator : Type := mkAccelerator {
  accelerator_wavelength : option R
}.

Record CTF : Type := mkCTF {
  changed : Event;
  cache : Cache;
  _accelerator : Accelerator;
  _semiangle_cutoff : xfloat;
  _rolloff : R;
  _focal_spread : R;
  _angular_spread : R;
  _gaussian_spread : R;
  _parameters : gmap string R
}.

Definition with_changed (self : CTF) (e : Event) : CTF :=
  mkCTF e (cache self) (_accelerator self) (_semiangle_cutoff self) (_rolloff self)
    (_focal_spread self) (_angular_spread self) (_gaussian_spread self) (_parameters self).

Definition with_cache (self : CTF) (c : Cache) : CTF :=
  mkCTF (changed self) c (_accelerator self) (_semiangle_cutoff self) (_rolloff self)
    (_focal_spread self) (_angular_spread self) (_gaussian_spread self) (_parameters self).

Definition with_semiangle_cutoff (self : CTF) (v : xfloat) : CTF :=
  mkCTF (changed self) (cache self) (_accelerator self) v (_rolloff self)
    (_focal_spread self) (_angular_spread self) (_gaussian_spread self) (_parameters self).

Definition with_rolloff (self : CTF) (v : R) : CTF :=
  mkCTF (changed self) (cache self) (_accelerator self) (_semiangle_cutoff self) v
    (_focal_spread self) (_angular_spread self) (_gaussian_spread self) (_parameters self).

Definition with_focal_spread (self : CTF) (v : R) : CTF :=
  mkCTF (changed self) (cache self) (_accelerator self) (_semiangle_cutoff self) (_rolloff self)
    v (_angular_spread self) (_gaussian_spread self) (_parameters self).

Definition with_angular_spread (self : CTF) (v : R) : CTF :=
  mkCTF (changed self) (cache self) (_accelerator self) (_semiangle_cutoff self) (_rolloff self)
    (_focal_spread self) v (_gaussian_spread self) (_parameters self).

Definition with_gaussian_spread (self : CTF) (v : R) : CTF :=
  mkCTF (changed self) (cache self) (_accelerator self) (_semiangle_cutoff self) (_rolloff self)
    (_focal_spread self) (_angular_spread self) v (_parameters self).

Definition with_parameters (self : CTF) (store : gmap string R) : CTF :=
  mkCTF (changed self) (cache self) (_accelerator self) (_semiangle_cutoff self) (_rolloff self)
    (_focal_spread self) (_angular_spread self) (_gaussian_spread self) store.

(** *** Change notification *)

(** Modelled from the spec: the callback clears the grid-evaluation
    cache on any notification, without looking at the payload. *)
Definition run_callback (cb : callback) (self : CTF) (notifier : string) (change : bool)
  : CTF :=
  match cb with
  | cache_clear_callback => with_cache self (cache_clear (cache self))
  end.

(** Modelled from the spec: [Event.notify] counts the notification and
    calls every registered callback with the payload. *)
Definition notify (self : CTF) (notifier : string) (change : bool) : CTF :=
  let event := changed self in
  let self := with_changed self (mkEvent (callbacks event) (S (_notify_count event))) in
  foldl (fun self cb => run_callback cb self notifier change) self (callbacks event).

(** Modelled from the spec: [Event.register] adds the callback to the
    observers. *)
Definition register (self : CTF) (cb : callback) : CTF :=
  with_changed self
    (mkEvent (callbacks (changed self) ++ [cb]) (_notify_count (changed self))).

(** *** [set_parameters] *)

Definition set_parameters (self : CTF) (parameters : list (string * R))
  : CTF * result (list (string * R)) :=
  let (store, outcome) := set_parameters_loop (_parameters self) parameters in
  (with_parameters self store, _ ← outcome; mret parameters).

(** *** Construction *)

(** [CTF.__init__]; [parameters] is the mapping after
    [parameters.update(kwargs)], [wavelength] stands for the accelerator
    built from [energy]. *)
Definition CTF_init (semiangle_cutoff : xfloat)
    (rolloff focal_spread angular_spread gaussian_spread : R)
    (wavelength : option R) (parameters : list (string * R)) : result CTF :=
  let self :=
    mkCTF (mkEvent [] 0) (mkCache 1 []) (mkAccelerator wavelength)
      semiangle_cutoff (DTYPE rolloff) (DTYPE focal_spread)
      (DTYPE angular_spread) (DTYPE gaussian_spread) initial_parameters in
  let (self, outcome) := set_parameters self parameters in
  _ ← outcome;
  mret (register self cache_clear_callback).

(** *** Properties *)

(** The getter made by [parametrization_property(key)]. *)
Definition parametrization_getter (key : string) (self : CTF) : result R :=
  match _parameters self !! key with
  | Some v => Ok v
  | None => Raise (KeyError key)
  end.

(** The setter made by [parametrization_property(key)].  Modelled from
    the spec: [notify_observers] is the notification of [changed]. *)
Definition parametrization_setter (key : string) (self : CTF) (value : R)
  : CTF * result unit :=
  match parametrization_getter key self with
  | Raise e => (self, Raise e)
  | Ok old =>
      let self := with_parameters self (<[key := value]> (_parameters self)) in
      (notify self key (bool_decide (old <> value)), Ok tt)
  end.

(** The properties installed on the class: one per symbol, and one per
    alias other than [defocus], bound to the alias's target. *)
Definition installed_property (name : string) : option string :=
  if decide (name ∈ polar_symbols) then Some name
  else if decide (name = "defocus") then None
  else alias_of name.

Definition defocus (self : CTF) : result R :=
  v ← parametrization_getter "C10" self; mret (- v).

(** Modelled from the spec: [abtem.bases.watched_property('changed')], the
    decorator of a property setter: it reads the property, runs the
    setter, and notifies [changed] with the property's name and whether the
    value written differs from the one read. *)
Definition watched_property {A : Type} `{EqDecision A} (property_name : string)
    (getter : CTF -> result A) (setter : CTF -> A -> CTF) (self : CTF) (value : A)
  : CTF * result unit :=
  match getter self with
  | Raise e => (self, Raise e)
  | Ok old =>
      let self := setter self value in
      (notify self property_name (bool_decide (old <> value)), Ok tt)
  end.

Definition set_defocus : CTF -> R -> CTF * result unit :=
  watched_property "defocus" defocus
    (fun self value =>
       with_parameters self (<["C10" := DTYPE (- value)]> (_parameters self))).

Definition semiangle_cutoff (self : CTF) : result xfloat := Ok (_semiangle_cutoff self).

Definition set_semiangle_cutoff : CTF -> xfloat -> CTF * result unit :=
  watched_property "semiangle_cutoff" semiangle_cutoff
    (fun self value => with_semiangle_cutoff self value).

Definition rolloff (self : CTF) : result R := Ok (_rolloff self).

Definition set_rolloff : CTF -> R -> CTF * result unit :=
  watched_property "rolloff" rolloff
    (fun self value => with_rolloff self (DTYPE value)).

Definition focal_spread (self : CTF) : result R := Ok (_focal_spread self).

Definition set_focal_spread : CTF -> R -> CTF * result unit :=
  watched_property "focal_spread" focal_spread
    (fun self value => with_focal_spread self (DTYPE value)).

Definition angular_spread (self : CTF) : result R := Ok (_angular_spread self).

Definition set_angular_spread : CTF -> R -> CTF * result unit :=
  watched_property "angular_spread" angular_spread
    (fun self value => with_angular_spread self (DTYPE value)).

Definition gaussian_spread (self : CTF) : result R := Ok (_gaussian_spread self).

Definition set_gaussian_spread : CTF -> R -> CTF * result unit :=
  watched_property "gaussian_spread" gaussian_spread
    (fun self value => with_gaussian_spread self (DTYPE value)).

(** *** Evaluation *)

(** Modelled from the spec: reading the wavelength fails with an
    "energy undefined" error while the energy is unset. *)
Definition energy_undefined : exn := RuntimeError "energy is not defined".

(** Modelled from the spec: [Grid.check_is_defined] fails with a "grid
    undefined" error, a [RuntimeError] in the tests of the grid. *)
Definition grid_undefined : exn := RuntimeError "grid is not defined".

(** Modelled from the spec: [self.wavelength], which the object gets from
    [HasAcceleratorMixin] (abtem.bases). *)
Definition wavelength (self : CTF) : result R :=
  match accelerator_wavelength (_accelerator self) with
  | Some w => Ok w
  | None => Raise energy_undefined
  end.

Definition evaluate_aperture (self : CTF) (alpha : list R) : list R :=
  calculate_aperture alpha (_semiangle_cutoff self) (_rolloff self).

Definition evaluate_temporal_envelope (self : CTF) (alpha : list R) : result (list R) :=
  w ← wavelength self;
  calculate_temporal_envelope alpha w (_focal_spread self).

Definition evaluate_spatial_envelope (self : CTF) (alpha phi : list R) : result (list R) :=
  w ← wavelength self;
  calculate_spatial_envelope alpha phi w (_angular_spread self) (_parameters self).

Definition evaluate_gaussian_envelope (self : CTF) (alpha : list R) : result (list R) :=
  w ← wavelength self;
  mret (calculate_gaussian_envelope alpha w (_gaussian_spread self)).

Definition evaluate_aberrations (self : CTF) (alpha phi : list R) : result (list complex) :=
  w ← wavelength self;
  calculate_polar_aberrations alpha phi w (_parameters self).

(** [array *= factor] *)
Definition multiply (array : list complex) (factor : list R) : list complex :=
  zip_with scale array factor.

Definition evaluate (self : CTF) (alpha phi : list R) : result (list complex) :=
  array ← evaluate_aberrations self alpha phi;
  array ← (if below_inf (_semiangle_cutoff self)
           then mret (multiply array (evaluate_aperture self alpha))
           else mret array);
  array ← (if decide (0 < _focal_spread self)
           then factor ← evaluate_temporal_envelope self alpha;
                mret (multiply array factor)
           else mret array);
  array ← (if decide (0 < _angular_spread self)
           then factor ← evaluate_spatial_envelope self alpha phi;
                mret (multiply array factor)
           else mret array);
  array ← (if decide (0 < _gaussian_spread self)
           then factor ← evaluate_gaussian_envelope self alpha;
                mret (multiply array factor)
           else mret array);
  mret array.

(** [f(x.reshape((-1, 1)), y.reshape((1, -1)))], flattened row by row. *)
Definition outer (f : R -> R -> R) (xs ys : list R) : list R :=
  x ← xs; map (f x) ys.

(** The body of [evaluate_on_grid], under the decorator. *)
Definition evaluate_on_grid_body (self : CTF) (grid : Grid) : result (list complex) :=
  _ ← (if check_is_defined grid then Ok tt else Raise grid_undefined);
  w ← wavelength self;
  let '(kx, ky) := spatial_frequencies grid in
  let alpha_x := map (fun k => k * w) kx in
  let alpha_y := map (fun k => k * w) ky in
  let alpha := outer (fun x y => sqrt (x ^ 2 + y ^ 2)) alpha_x alpha_y in
  let phi := outer arctan2 alpha_x alpha_y in
  evaluate self alpha phi.

(** Modelled from the spec: [abtem.bases.cached_method('cache')], the
    decorator of a method of one argument: it returns the entry stored
    under the argument when there is one, and otherwise runs the method
    and stores what it returns. *)
Definition cached_method (method : CTF -> Grid -> result (list complex))
    (self : CTF) (grid : Grid) : CTF * result (list complex) :=
  match cache_lookup (cache self) grid with
  | Some array => (self, Ok array)
  | None =>
      match method self grid with
      | Ok array => (with_cache self (cache_insert (cache self) grid array), Ok array)
      | Raise e => (self, Raise e)
      end
  end.

Definition evaluate_on_grid : CTF -> Grid -> CTF * result (list complex) :=
  cached_method evaluate_on_grid_body.

(** *** Mutations of the object *)

(** [self.<name> = value] for a name that is none of the coefficient
    properties.  The five optical settings go through their watched
    setters; [parameters] is a property without a setter, so the
    assignment raises; any other name is an attribute that the record
    does not hold, and the assignment leaves the record as it is. *)
Definition set_setting (self : CTF) (name : string) (value : R) : CTF * result unit :=
  if decide (name = "semiangle_cutoff") then set_semiangle_cutoff self (Finite value)
  else if decide (name = "rolloff") then set_rolloff self value
  else if decide (name = "focal_spread") then set_focal_spread self value
  else if decide (name = "angular_spread") then set_angular_spread self value
  else if decide (name = "gaussian_spread") then set_gaussian_spread self value
  else if decide (name = "parameters") then (self, Raise (AttributeError name))
  else (self, Ok tt).

(** What a caller can do to change a coefficient, an alias or an optical
    setting: assign a number to an attribute ([SetProperty], by the name
    of the attribute), assign an optical setting (one constructor for
    each, the cutoff possibly infinite) or call [set_parameters].
    Assignments to the fields of the object themselves and to the
    attributes of the accelerator are not among them. *)
Inductive mutation : Type :=
  | SetProperty (name : string) (value : R)
  | SetSemiangleCutoff (value : xfloat)
  | SetRolloff (value : R)
  | SetFocalSpread (value : R)
  | SetAngularSpread (value : R)
  | SetGaussianSpread (value : R)
  | SetParameters (parameters : list (string * R)).

Definition mutate (self : CTF) (m : mutation) : CTF * result unit :=
  match m with
  | SetProperty name value =>
      if decide (name = "defocus") then set_defocus self value
      else
        match installed_property name with
        | Some key => parametrization_setter key self value
        | None => set_setting self name value
        end
  | SetSemiangleCutoff value => set_semiangle_cutoff self value
  | SetRolloff value => set_rolloff self value
  | SetFocalSpread value => set_focal_spread self value
  | SetAngularSpread value => set_angular_spread self value
  | SetGaussianSpread value => set_gaussian_spread self value
  | SetParameters parameters =>
      let (self, outcome) := set_parameters self parameters in
      (self, _ ← outcome; mret tt)
  end.

End CTF.

(** * Specification-level definitions *)

(** ** The parameter store *)

(** The store holds exactly the 25 coefficients. *)
Definition well_formed (store : gmap string R) : Prop :=
  dom store = list_to_set polar_symbols.

(** The coefficient a name of [set_parameters] stands for, and the value
    stored for it: what the specification says an entry does. *)
Definition canonical (symbol : string) : option string :=
  if decide (symbol ∈ polar_symbols) then Some symbol else alias_of symbol.

Definition stored_value (symbol : string) (value : R) : R :=
  if decide (symbol = "defocus") then - value else value.

Definition apply_entry (store : gmap string R) (entry : string * R) : gmap string R :=
  match canonical entry.1 with
  | Some key => <[key := stored_value entry.1 entry.2]> store
  | None => store
  end.

(** A full parameter mapping has a value for each of the 25 symbols. *)
Definition full (parameters : gmap string R) : Prop :=
  forall key, key ∈ polar_symbols -> is_Some (parameters !! key).

Definition all_zero (parameters : gmap string R) : Prop :=
  forall key, key ∈ polar_symbols -> parameters !! key = Some 0.

(** ** The phase error *)

(** The value of [calculate_polar_chi] at one element when no group is
    skipped. *)
Definition polar_chi_at (p : string -> R) (k a f : R) : R :=
  k * (DTYPE 0 + order1 p a f + order2 p a f + order3 p a f + order4 p a f + order5 p a f).

(** The expansion as the specification writes it.  The terms of order [n]:
    azimuthal index [m], the name of the magnitude and, unless [m] is 0,
    the name of the phase. *)
Definition expansion_terms (n : nat) : list (nat * string * option string) :=
  match n with
  | 1 => [(0, "C10", None); (2, "C12", Some "phi12")]
  | 2 => [(1, "C21", Some "phi21"); (3, "C23", Some "phi23")]
  | 3 => [(0, "C30", None); (2, "C32", Some "phi32"); (4, "C34", Some "phi34")]
  | 4 => [(1, "C41", Some "phi41"); (3, "C43", Some "phi43"); (5, "C45", Some "phi45")]
  | 5 => [(0, "C50", None); (2, "C52", Some "phi52"); (4, "C54", Some "phi54");
          (6, "C56", Some "phi56")]
  | _ => []
  end%nat.

Definition sum (l : list R) : R := foldr Rplus 0 l.

(** [C_{n,m} cos(m (phi - phi_{n,m}))] *)
Definition azimuthal (p : string -> R) (f : R) (term : nat * string * option string) : R :=
  let '(m, magnitude, phase) := term in
  p magnitude * cos (INR m * (f - from_option p 0 phase)).

(** [2 pi / lambda] times the sum over the orders 1 to 5 of
    [1/(n+1) alpha^(n+1)] times the sum of the order's terms, with no
    group left out. *)
Definition polar_chi_naive (p : string -> R) (wavelength a f : R) : R :=
  2 * PI / wavelength *
  sum (map (fun n => 1 / INR (n + 1) * a ^ (n + 1) *
                     sum (map (azimuthal p f) (expansion_terms n)))
           [1; 2; 3; 4; 5]%nat).

(** The coefficients that do not depend on the azimuth. *)
Definition symmetric_symbols : list string := ["C10"; "C30"; "C50"].

(** ** The envelopes *)

(** [alpha >= cutoff] for a bound that may be infinite. *)
Definition xge (a : R) (c : xfloat) : Prop :=
  match c with
  | Finite c => c <= a
  | PosInf => False
  end.

(** The derivative in the azimuth of one term of the expansion, up to
    sign: [m C_{n,m} sin(m (phi - phi_{n,m}))]. *)
Definition azimuthal_sin (p : string -> R) (f : R) (term : nat * string * option string) : R :=
  let '(m, magnitude, phase) := term in
  INR m * p magnitude * sin (INR m * (f - from_option p 0 phase)).

(** The two components of the gradient of the expansion in polar
    coordinates, with [k] for [2 pi / lambda]: the derivative in [alpha],
    and the derivative in [phi] divided by [alpha]. *)
Definition radial_gradient (p : string -> R) (k a f : R) : R :=
  k * sum (map (fun n => a ^ n * sum (map (azimuthal p f) (expansion_terms n)))
               [1; 2; 3; 4; 5]%nat).

Definition azimuthal_gradient (p : string -> R) (k a f : R) : R :=
  - k * sum (map (fun n => 1 / INR (n + 1) * a ^ n *
                           sum (map (azimuthal_sin p f) (expansion_terms n)))
                 [1; 2; 3; 4; 5]%nat).

(** The envelope as the specification writes it. *)
Definition spatial_envelope_at (p : string -> R) (k angular_spread a f : R) : R :=
  exp (- sign angular_spread * (angular_spread / 2) ^ 2 *
       (radial_gradient p k a f ^ 2 + azimuthal_gradient p k a f ^ 2)).

(** ** The object *)

(** The optical settings at their defaults. *)
Definition default_settings {Grid : Type} (self : @CTF Grid) : Prop :=
  _semiangle_cutoff self = PosInf /\ _rolloff self = 0 /\ _focal_spread self = 0 /\
  _angular_spread self = 0 /\ _gaussian_spread self = 0.

(** The attributes that hold a coefficient: [defocus], the 25 symbols and
    the other aliases. *)
Definition is_property (name : string) : Prop :=
  name = "defocus" \/ is_Some (installed_property name).

(** The object has its cache-clearing observer, as after [__init__]. *)
Definition observed {Grid : Type} (self : @CTF Grid) : Prop :=
  cache_clear_callback ∈ callbacks (changed self).

(** What holds of every object built by [__init__]: the store has the 25
    coefficients, the cache has room for one array, and the observer that
    clears the cache is registered. *)
Definition constructed {Grid : Type} (self : @CTF Grid) : Prop :=
  well_formed (_parameters self) /\ capacity (cache self) = 1%nat /\ observed self.

(** The objects a caller can get: built by [__init__], then changed
    through the properties, [set_parameters] and [evaluate_on_grid],
    whether the call returns or raises. *)
Inductive reachable {Grid : Type} `{!GridInterface Grid} : @CTF Grid -> Prop :=
  | reachable_init cutoff rolloff focal_spread angular_spread gaussian_spread
      wavelength parameters self :
      CTF_init cutoff rolloff focal_spread angular_spread gaussian_spread
        wavelength parameters = Ok self ->
      reachable self
  | reachable_mutate self m self' outcome :
      reachable self -> mutate self m = (self', outcome) -> reachable self'
  | reachable_evaluate self grid self' outcome :
      reachable self -> evaluate_on_grid self grid = (self', outcome) -> reachable self'.

(** ** Notions for the further properties *)

(** A complex number on the unit circle, and one within the unit disc. *)
Definition unit_modulus (z : complex) : Prop := re z ^ 2 + im z ^ 2 = 1.

Definition modulus_at_most_1 (z : complex) : Prop := re z ^ 2 + im z ^ 2 <= 1.

(** A damping factor: positive and at most 1. *)
Definition damping (x : R) : Prop := 0 < x <= 1.

(** What the three passes of [calculate_aperture] leave at an element
    [a] of [alpha]. *)
Definition aperture_at (cutoff : xfloat) (rolloff a : R) : R :=
  if decide (0 < rolloff) then
    match cutoff with
    | Finite c =>
        let width := rolloff * c in
        if decide (c - width < a) then
          if decide (c < a) then 0
          else 0.5 * (1 + cos (PI * (a - c + width) / width))
        else 1
    | PosInf => 1
    end
  else if decide (xlt a cutoff) then 1 else 0.

(** The envelopes at one element [a] of [alpha]. *)
Definition temporal_at (wavelength focal_spread a : R) : R :=
  DTYPE (exp (- (0.5 * PI / wavelength * focal_spread * a ^ 2) ^ 2)).

Definition gaussian_at (wavelength gaussian_spread a : R) : R :=
  DTYPE (exp (- 0.5 * gaussian_spread ^ 2 * a ^ 2 / wavelength ^ 2)).

(** The factors [evaluate] multiplies into the aberrations, in its order,
    for an object of wavelength [w]: each is there only when its setting
    asks for it. *)
Definition applied_factors {Grid : Type} (self : @CTF Grid) (w : R) (alpha phi : list R)
  : list (list R) :=
  (if below_inf (_semiangle_cutoff self)
   then [calculate_aperture alpha (_semiangle_cutoff self) (_rolloff self)] else []) ++
  (if decide (0 < _focal_spread self)
   then [map (temporal_at w (_focal_spread self)) alpha] else []) ++
  (if decide (0 < _angular_spread self)
   then [zip_with (spatial_envelope_at (item (_parameters self)) (2 * PI / w)
                     (_angular_spread self)) alpha phi] else []) ++
  (if decide (0 < _gaussian_spread self)
   then [map (gaussian_at w (_gaussian_spread self)) alpha] else []).

(** The polar coordinates [evaluate_on_grid] builds from the two axes of
    scattering angles, each flattened row by row. *)
Definition grid_alpha (alpha_x alpha_y : list R) : list R :=
  outer (fun x y => sqrt (x ^ 2 + y ^ 2)) alpha_x alpha_y.

Definition grid_phi (alpha_x alpha_y : list R) : list R :=
  outer arctan2 alpha_x alpha_y.

(** The keys [polar2cartesian] writes and [cartesian2polar] reads. *)
Definition cartesian_symbols : list string :=
  [ "C10"; "C12a"; "C12b"; "C21a"; "C21b"; "C23a"; "C23b";
    "C30"; "C32a"; "C32b"; "C34a"; "C34b" ].

(** The first name of a mapping that is neither a coefficient nor an
    alias, if there is one. *)
Fixpoint first_unknown (parameters : list (string * R)) : option string :=
  match parameters with
  | [] => None
  | (symbol, _) :: rest =>
      match canonical symbol with
      | Some _ => first_unknown rest
      | None => Some symbol
      end
  end.




(** ** Concrete objects *)

(** A defined grid with the single frequency pair (1/2, 0), whatever its
    number. *)
#[local] Instance example_grid : GridInterface nat := {|
  check_is_defined := fun _ => true;
  spatial_frequencies := fun _ => ([1 / 2], [0])
|}.

(** A freshly constructed object, with one-dimensional grids named by a
    number; used to run the statements below on concrete inputs. *)
Definition example_ctf : @CTF nat :=
  mkCTF (mkEvent [cache_clear_callback] 0) (mkCache 1 []) (mkAccelerator (Some 2))
    PosInf 0 0 0 0 initial_parameters.

(** The same object with a wavelength of zero. *)
Definition zero_wavelength_ctf : @CTF nat :=
  mkCTF (mkEvent [cache_clear_callback] 0) (mkCache 1 []) (mkAccelerator (Some 0))
    PosInf 0 0 0 0 initial_parameters.

(** The object after the first evaluation on grid 0. *)
Definition evaluated_ctf : @CTF nat :=
  with_cache example_ctf (cache_insert (cache example_ctf) 0%nat [Complex 1 0]).

(** The object after [set_parameters({'C10': 1.})] on the evaluated one. *)
Definition changed_ctf : @CTF nat :=
  with_parameters evaluated_ctf (<["C10" := 1]> initial_parameters).

(** An object with an aperture, a negative angular spread and astigmatism. *)
Definition amplifying_ctf : @CTF nat :=
  mkCTF (mkEvent [cache_clear_callback] 0) (mkCache 1 []) (mkAccelerator (Some 2))
    (Finite 3) 0.5 1 (-1) 1 (<["C12" := 1]> initial_parameters).

(** * Properties *)

(** ** The parameter store *)

Lemma initial_parameters_well_formed : well_formed initial_parameters.
Proof. unfold well_formed, initial_parameters. by rewrite dom_list_to_map_L. Qed.

Lemma alias_of_target symbol target :
  alias_of symbol = Some target -> target ∈ polar_symbols.
Proof.
  unfold alias_of, polar_aliases; simpl.
  repeat case_decide; intros [= <-]; by apply (bool_decide_unpack _).
Qed.

Lemma defocus_not_symbol : "defocus" ∉ polar_symbols.
Proof. by apply (bool_decide_unpack _). Qed.

Lemma well_formed_lookup store symbol :
  well_formed store -> is_Some (store !! symbol) <-> symbol ∈ polar_symbols.
Proof.
  intros Hwf. rewrite <- elem_of_dom, Hwf. apply elem_of_list_to_set.
Qed.

Lemma well_formed_insert store key value :
  well_formed store -> key ∈ polar_symbols -> well_formed (<[key := value]> store).
Proof.
  unfold well_formed. intros Hwf Hkey. rewrite dom_insert_L, Hwf.
  apply set_eq. intros x. rewrite elem_of_union, elem_of_singleton, !elem_of_list_to_set.
  split; [intros [->|?]; auto | auto].
Qed.

Lemma canonical_target symbol key : canonical symbol = Some key -> key ∈ polar_symbols.
Proof.
  unfold canonical. case_decide; [by intros [= <-] | apply alias_of_target].
Qed.

(** One iteration of the loop does what [apply_entry] says, or raises for
    a name that is neither a coefficient nor an alias. *)
Lemma set_parameter_spec store symbol value :
  well_formed store ->
  match canonical symbol with
  | Some _ => set_parameter store symbol value = Ok (apply_entry store (symbol, value))
  | None => set_parameter store symbol value = Raise (ValueError (not_recognized symbol))
  end.
Proof.
  intros Hwf. unfold set_parameter, apply_entry, canonical, stored_value; simpl.
  pose proof (well_formed_lookup store symbol Hwf) as Hin.
  destruct (decide (is_Some (store !! symbol))) as [Hs|Hs];
    destruct (decide (symbol ∈ polar_symbols)) as [Hp|Hp]; try tauto.
  - destruct (decide (symbol = "defocus")) as [->|]; [|done].
    by destruct defocus_not_symbol.
  - destruct (decide (symbol = "defocus")) as [->|]; [done|].
    by destruct (alias_of symbol).
Qed.

Lemma apply_entry_well_formed store entry :
  well_formed store -> well_formed (apply_entry store entry).
Proof.
  intros Hwf. unfold apply_entry.
  destruct (canonical entry.1) eqn:Hc; [|done].
  apply well_formed_insert; [done|]. by apply canonical_target in Hc.
Qed.

Lemma apply_entries_well_formed entries store :
  well_formed store -> well_formed (foldl apply_entry store entries).
Proof.
  revert store. induction entries as [|e es IH]; intros store Hwf; simpl; [done|].
  apply IH. by apply apply_entry_well_formed.
Qed.

Lemma apply_entry_other store entry key :
  key ∉ polar_symbols -> apply_entry store entry !! key = store !! key.
Proof.
  intros Hkey. unfold apply_entry.
  destruct (canonical entry.1) eqn:Hc; [|done].
  apply lookup_insert_ne. intros ->. by apply canonical_target in Hc.
Qed.

Lemma apply_entries_other entries store key :
  key ∉ polar_symbols -> foldl apply_entry store entries !! key = store !! key.
Proof.
  intros Hkey. revert store.
  induction entries as [|e es IH]; intros store; simpl; [done|].
  rewrite IH. by apply apply_entry_other.
Qed.

(** A loop over recognized names runs to its end and applies every entry. *)
Lemma set_parameters_loop_recognized entries store :
  well_formed store ->
  Forall (fun entry => is_Some (canonical entry.1)) entries ->
  set_parameters_loop store entries = (foldl apply_entry store entries, Ok tt).
Proof.
  intros Hwf Hall. revert store Hwf.
  induction Hall as [|[symbol value] es [key Hkey] _ IH]; intros store Hwf; simpl; [done|].
  pose proof (set_parameter_spec store symbol value Hwf) as Hstep.
  simpl in Hkey. rewrite Hkey in Hstep. rewrite Hstep.
  apply IH. by apply apply_entry_well_formed.
Qed.

(** The loop stops at the first unrecognized name, with the entries before
    it applied and none after. *)
Lemma set_parameters_loop_stops before symbol value after store :
  well_formed store ->
  Forall (fun entry => is_Some (canonical entry.1)) before ->
  canonical symbol = None ->
  set_parameters_loop store (before ++ (symbol, value) :: after) =
    (foldl apply_entry store before, Raise (ValueError (not_recognized symbol))).
Proof.
  intros Hwf Hall Hbad. revert store Hwf.
  induction Hall as [|[s v] es [key Hkey] _ IH]; intros store Hwf; simpl.
  - pose proof (set_parameter_spec store symbol value Hwf) as Hstep.
    rewrite Hbad in Hstep. by rewrite Hstep.
  - pose proof (set_parameter_spec store s v Hwf) as Hstep.
    simpl in Hkey. rewrite Hkey in Hstep. rewrite Hstep.
    apply IH. by apply apply_entry_well_formed.
Qed.

(** Every list of entries splits at its first unrecognized name, if any. *)
Lemma first_unrecognized (entries : list (string * R)) symbol :
  symbol ∈ entries.*1 -> canonical symbol = None ->
  exists before bad value after,
    entries = before ++ (bad, value) :: after /\
    Forall (fun entry => is_Some (canonical entry.1)) before /\
    canonical bad = None.
Proof.
  induction entries as [|[s v] es IH]; simpl; intros Hin Hbad.
  - by apply elem_of_nil in Hin.
  - destruct (canonical s) as [key|] eqn:Hs.
    + apply elem_of_cons in Hin as [->|Hin]; [congruence|].
      destruct (IH Hin Hbad) as (before & bad & value & after & -> & Hall & Hnone).
      exists ((s, v) :: before), bad, value, after. split_and!; [done| |done].
      constructor; [|done]. simpl. by rewrite Hs.
    + exists [], s, v, es. by split_and!.
Qed.

Lemma canonical_None symbol :
  canonical symbol = None <-> (symbol ∉ polar_symbols) /\ alias_of symbol = None.
Proof.
  unfold canonical. case_decide; split; try tauto; done.
Qed.

(** [example_ctf] is what [CTF(energy=...)] builds, for an energy of
    wavelength 2. *)
Lemma example_ctf_init : CTF_init PosInf 0 0 0 0 (Some 2) [] = Ok example_ctf.
Proof. reflexivity. Qed.

Section StoreProperties.

Context {Grid : Type}.
Implicit Types (self : @CTF Grid) (parameters : list (string * R)).

(** C4.  When some name in the mapping given to [set_parameters] is
    neither one of the 25 coefficient names nor an alias, the call
    raises the "not a recognized parameter" error, and the store's entry
    for every such name is what it was before the call. *)
Theorem set_parameters_rejects_unknown self parameters symbol :
  well_formed (_parameters self) ->
  symbol ∈ parameters.*1 ->
  symbol ∉ polar_symbols ->
  alias_of symbol = None ->
  exists self' bad,
    set_parameters self parameters = (self', Raise (ValueError (not_recognized bad))) /\
    (bad ∉ polar_symbols) /\ alias_of bad = None /\
    _parameters self' !! bad = _parameters self !! bad /\
    _parameters self' !! symbol = _parameters self !! symbol.
Proof.
  intros Hwf Hin Hsym Halias.
  assert (canonical symbol = None) as Hbad by by apply canonical_None.
  destruct (first_unrecognized parameters symbol Hin Hbad)
    as (before & bad & value & after & -> & Hall & Hnone).
  exists (with_parameters self (foldl apply_entry (_parameters self) before)), bad.
  apply canonical_None in Hnone as Hnone'. destruct Hnone' as [Hb1 Hb2].
  unfold set_parameters.
  rewrite (set_parameters_loop_stops before bad value after _ Hwf Hall Hnone).
  simpl. split_and!; try done; by apply apply_entries_other.
Qed.

(** C10.  When the first unrecognized name of the entries given to
    [set_parameters] is at position k, the call raises with the store
    holding exactly the effect of the entries before k, each written to
    its coefficient (negated for [defocus]), and nothing of the entries
    from k on. *)
Theorem set_parameters_partial_application self before symbol value after :
  well_formed (_parameters self) ->
  Forall (fun entry => is_Some (canonical entry.1)) before ->
  canonical symbol = None ->
  set_parameters self (before ++ (symbol, value) :: after) =
    (with_parameters self (foldl apply_entry (_parameters self) before),
     Raise (ValueError (not_recognized symbol))).
Proof.
  intros Hwf Hall Hbad. unfold set_parameters.
  by rewrite (set_parameters_loop_stops before symbol value after _ Hwf Hall Hbad).
Qed.

(** A call whose names are all recognized applies every entry and
    returns the mapping. *)
Lemma set_parameters_recognized self parameters :
  well_formed (_parameters self) ->
  Forall (fun entry => is_Some (canonical entry.1)) parameters ->
  set_parameters self parameters =
    (with_parameters self (foldl apply_entry (_parameters self) parameters), Ok parameters).
Proof.
  intros Hwf Hall. unfold set_parameters.
  by rewrite (set_parameters_loop_recognized parameters _ Hwf Hall).
Qed.

End StoreProperties.

Lemma set_parameters_rejects_unknown_witness :
  exists self' bad,
    set_parameters example_ctf [("unknown_xyz", 1)] =
      (self', Raise (ValueError (not_recognized bad))) /\
    (bad ∉ polar_symbols) /\ alias_of bad = None /\
    _parameters self' !! bad = _parameters example_ctf !! bad /\
    _parameters self' !! "unknown_xyz" = _parameters example_ctf !! "unknown_xyz".
Proof.
  apply (set_parameters_rejects_unknown example_ctf [("unknown_xyz", 1)] "unknown_xyz").
  - exact initial_parameters_well_formed.
  - by apply (bool_decide_unpack _).
  - by apply (bool_decide_unpack _).
  - reflexivity.
Defined.

(** The entry before the unknown name is written (with the sign of
    [defocus] flipped), the one after it is not. *)
Lemma set_parameters_partial_application_witness :
  let outcome :=
    set_parameters example_ctf [("defocus", 50); ("unknown_xyz", 1); ("C30", 2)] in
  outcome.2 = Raise (ValueError "unknown_xyz not a recognized parameter") /\
  _parameters outcome.1 !! "C10" = Some (- 50) /\
  _parameters outcome.1 !! "C30" = Some 0.
Proof.
  cbv zeta.
  change [("defocus", 50); ("unknown_xyz", 1); ("C30", 2)]
    with ([("defocus", 50)] ++ ("unknown_xyz", 1) :: [("C30", 2)]).
  rewrite (set_parameters_partial_application example_ctf
             [("defocus", 50)] "unknown_xyz" 1 [("C30", 2)]).
  - split_and!; reflexivity.
  - exact initial_parameters_well_formed.
  - repeat constructor. by exists "C10".
  - reflexivity.
Defined.

(** ** Reading a full mapping *)

Lemma well_formed_full store : well_formed store -> full store.
Proof. intros Hwf key Hkey. by apply well_formed_lookup. Qed.

Lemma require_full parameters keys :
  full parameters -> Forall (fun key => key ∈ polar_symbols) keys ->
  require parameters keys = Ok tt.
Proof.
  intros Hfull. induction 1 as [|key keys Hkey _ IH]; simpl; [done|].
  by destruct (Hfull key Hkey) as [v ->].
Qed.

Lemma any_nonzero_full parameters symbols :
  full parameters -> Forall (fun key => key ∈ polar_symbols) symbols ->
  any_nonzero parameters symbols =
    Ok (existsb (fun symbol => bool_decide (item parameters symbol <> 0)) symbols).
Proof. intros Hfull Hsym. unfold any_nonzero. by rewrite require_full. Qed.

Lemma existsb_nonzero_false parameters symbols :
  existsb (fun symbol => bool_decide (item parameters symbol <> 0)) symbols = false ->
  Forall (fun symbol => item parameters symbol = 0) symbols.
Proof.
  induction symbols as [|s symbols IH]; simpl; [constructor|].
  intros [Hs Hrest]%orb_false_elim. constructor; [|by apply IH].
  apply bool_decide_eq_false in Hs. by destruct (decide (item parameters s = 0)).
Qed.

Lemma existsb_nonzero_zero parameters symbols :
  Forall (fun symbol => item parameters symbol = 0) symbols ->
  existsb (fun symbol => bool_decide (item parameters symbol <> 0)) symbols = false.
Proof.
  induction 1 as [|s symbols Hs _ IH]; simpl; [done|].
  rewrite IH, orb_false_r. apply bool_decide_eq_false. by intros [].
Qed.

(** Membership of the key lists of the source in [polar_symbols]. *)
Ltac symbols_known := apply (bool_decide_unpack _); vm_compute; exact I.

(** ** Element-wise reasoning on arrays *)

Lemma zip_with_zeros (array : list R) (alpha phi : list R) (term : R -> R -> R) :
  length array = length alpha -> length alpha = length phi ->
  (forall a f, term a f = 0) ->
  add_term array term alpha phi = array.
Proof.
  unfold add_term. intros Hlen1 Hlen2 Hzero.
  revert alpha phi Hlen1 Hlen2.
  induction array as [|x array IH]; intros [|a alpha] [|f phi]; simpl; try done.
  intros [= Hlen1] [= Hlen2]. rewrite Hzero, (IH alpha phi Hlen1 Hlen2). f_equal. lra.
Qed.

Lemma add_term_zip_with (g term : R -> R -> R) (alpha phi : list R) :
  add_term (zip_with g alpha phi) term alpha phi =
    zip_with (fun a f => g a f + term a f) alpha phi.
Proof.
  unfold add_term. revert phi.
  induction alpha as [|a alpha IH]; intros [|f phi]; simpl; try done.
  by rewrite IH.
Qed.

Lemma replicate_zip_with (x : R) (alpha phi : list R) :
  length alpha = length phi ->
  replicate (length alpha) x = zip_with (fun _ _ => x) alpha phi.
Proof.
  revert phi. induction alpha as [|a alpha IH]; intros [|f phi]; simpl; try done.
  intros [= Hlen]. by rewrite (IH phi).
Qed.

Lemma zip_with_constant_r (g : R -> R) (alpha phi : list R) :
  length alpha = length phi ->
  zip_with (fun a _ => g a) alpha phi = map g alpha.
Proof.
  revert phi. induction alpha as [|a alpha IH]; intros [|f phi]; simpl; try done.
  intros [= Hlen]. by rewrite IH.
Qed.

Lemma zip_with_pointwise (g h : R -> R -> R) (alpha phi : list R) :
  (forall a f, g a f = h a f) -> zip_with g alpha phi = zip_with h alpha phi.
Proof.
  intros Heq. revert phi.
  induction alpha as [|a alpha IH]; intros [|f phi]; simpl; try done.
  by rewrite Heq, IH.
Qed.

(** ** The order groups of [calculate_polar_chi] *)

(** A group whose tested coefficients are all zero is skipped. *)
Lemma order_group_skipped parameters tested used term alpha phi array :
  full parameters ->
  Forall (fun key => key ∈ polar_symbols) tested ->
  Forall (fun symbol => item parameters symbol = 0) tested ->
  order_group parameters tested used term alpha phi array = Ok array.
Proof.
  intros Hfull Hknown Hzero. unfold order_group.
  rewrite any_nonzero_full by done. simpl.
  by rewrite existsb_nonzero_zero.
Qed.

(** Skipping a group is the same as adding its term, provided the term
    vanishes when the tested coefficients do. *)
Lemma order_group_adds parameters tested used term alpha phi array :
  full parameters ->
  Forall (fun key => key ∈ polar_symbols) tested ->
  Forall (fun key => key ∈ polar_symbols) used ->
  (Forall (fun symbol => item parameters symbol = 0) tested -> forall a f, term a f = 0) ->
  length array = length alpha -> length alpha = length phi ->
  order_group parameters tested used term alpha phi array =
    Ok (add_term array term alpha phi).
Proof.
  intros Hfull Htested Hused Hzero Hlen1 Hlen2. unfold order_group.
  rewrite any_nonzero_full by done. simpl.
  destruct (existsb _ tested) eqn:Hany.
  - by rewrite require_full.
  - simpl. f_equal. symmetry. apply zip_with_zeros; try done.
    apply Hzero. by apply existsb_nonzero_false.
Qed.

(** ** The phase error *)

(** The hypotheses [item parameters symbol = 0] for the symbols of a test. *)
Ltac zero_symbols H :=
  repeat match type of H with
         | Forall _ (_ :: _) => apply Forall_cons in H as [? H]
         end;
  repeat match goal with E : item _ _ = 0 |- _ => rewrite E; clear E end.

Lemma length_add_term array term alpha phi :
  length array = length alpha -> length alpha = length phi ->
  length (add_term array term alpha phi) = length alpha.
Proof.
  intros H1 H2. unfold add_term. rewrite !length_zip_with. lia.
Qed.

(** One group of [calculate_polar_chi], whose array so far is a
    [zip_with] over [alpha] and [phi]: the group adds [term], which
    vanishes with the tested coefficients. *)
Ltac add_group term :=
  rewrite order_group_adds;
    [ cbv beta iota delta [mbind result_bind]; rewrite add_term_zip_with
    | assumption
    | repeat constructor; symbols_known
    | repeat constructor; symbols_known
    | let H := fresh "H" in
      intros H ? ?; unfold term; cbv zeta; zero_symbols H; ring
    | rewrite length_zip_with; lia
    | assumption ].

(** For a full mapping and arrays of one shape the zero tests do not show
    in the result. *)
Lemma calculate_polar_chi_elements alpha phi wavelength parameters :
  full parameters -> length alpha = length phi ->
  calculate_polar_chi alpha phi wavelength parameters =
    (k ← divide (2 * PI) wavelength;
     mret (zip_with (polar_chi_at (item parameters) k) alpha phi)).
Proof.
  intros Hfull Hlen. unfold calculate_polar_chi.
  rewrite (replicate_zip_with _ alpha phi Hlen).
  add_group order1. add_group order2. add_group order3.
  add_group order4. add_group order5.
  destruct (divide (2 * PI) wavelength) as [k|e]; [|done].
  cbv beta iota delta [mbind result_bind mret result_ret].
  f_equal. unfold polar_chi_at.
  clear Hfull. revert phi Hlen.
  induction alpha as [|a alpha IH]; intros [|f phi]; simpl; try done.
  intros [= Hlen]. by rewrite IH.
Qed.

Lemma polar_chi_at_naive p wavelength a f :
  polar_chi_at p (2 * PI / wavelength) a f = polar_chi_naive p wavelength a f.
Proof.
  unfold polar_chi_at, polar_chi_naive, order1, order2, order3, order4, order5,
    DTYPE, azimuthal, sum.
  cbn [map foldr expansion_terms from_option Nat.add].
  rewrite !INR_IZR_INZ. cbv [Z.of_nat Pos.of_succ_nat Pos.succ].
  rewrite !Rmult_0_l, cos_0, !Rmult_1_l.
  f_equal. field.
Qed.

(** C7.  For a full mapping, a nonzero wavelength and arrays of one shape,
    the group-skipping [calculate_polar_chi] returns, element by element,
    the value of the expansion with all five order groups computed. *)
Theorem polar_chi_skip_equals_naive alpha phi wavelength parameters :
  wavelength <> 0 ->
  full parameters ->
  length alpha = length phi ->
  calculate_polar_chi alpha phi wavelength parameters =
    Ok (zip_with (polar_chi_naive (item parameters) wavelength) alpha phi).
Proof.
  intros Hw Hfull Hlen.
  rewrite calculate_polar_chi_elements by done.
  unfold divide. destruct (decide (wavelength = 0)) as [|_]; [done|]. simpl.
  f_equal. apply zip_with_pointwise. intros a f. apply polar_chi_at_naive.
Qed.

Lemma polar_chi_skip_equals_naive_witness :
  calculate_polar_chi [1; 2] [0; PI] 2 (<["C12" := 1]> initial_parameters) =
    Ok (zip_with (polar_chi_naive (item (<["C12" := 1]> initial_parameters)) 2) [1; 2] [0; PI]).
Proof.
  apply (polar_chi_skip_equals_naive [1; 2] [0; PI] 2 (<["C12" := 1]> initial_parameters)).
  - lra.
  - apply well_formed_full, well_formed_insert;
      [exact initial_parameters_well_formed | symbols_known].
  - reflexivity.
Defined.

(** ** The symmetric expansion *)

Lemma calculate_symmetric_chi_elements alpha wavelength parameters :
  full parameters ->
  calculate_symmetric_chi alpha wavelength parameters =
    (k ← divide (2 * PI) wavelength;
     mret (map (fun a =>
                  k * (1 / 2 * a ^ 2 * item parameters "C10" +
                       1 / 4 * (a ^ 2) ^ 2 * item parameters "C30" +
                       1 / 6 * (a ^ 2) ^ 3 * item parameters "C50")) alpha)).
Proof.
  intros Hfull. unfold calculate_symmetric_chi.
  destruct (divide (2 * PI) wavelength) as [k|e]; [|done].
  cbv beta iota delta [mbind result_bind].
  rewrite require_full; [done|done|repeat constructor; symbols_known].
Qed.

(** C9.  When every coefficient other than C10, C30 and C50 is zero, the
    polar expansion and the symmetric expansion return the same array, for
    a nonzero wavelength and arrays of one shape. *)
Theorem polar_chi_equals_symmetric_chi alpha phi wavelength parameters :
  wavelength <> 0 ->
  full parameters ->
  (forall key, key ∈ polar_symbols -> key ∉ symmetric_symbols -> parameters !! key = Some 0) ->
  length alpha = length phi ->
  exists chi,
    calculate_polar_chi alpha phi wavelength parameters = Ok chi /\
    calculate_symmetric_chi alpha wavelength parameters = Ok chi.
Proof.
  intros Hw Hfull Hzero Hlen.
  rewrite calculate_polar_chi_elements, calculate_symmetric_chi_elements by done.
  unfold divide. destruct (decide (wavelength = 0)) as [|_]; [done|]. simpl.
  eexists. split; [|reflexivity]. f_equal.
  rewrite <- (zip_with_constant_r _ alpha phi Hlen).
  apply zip_with_pointwise. intros a f.
  assert (forall key, key ∈ polar_symbols -> key ∉ symmetric_symbols ->
                      item parameters key = 0) as Hitem.
  { intros key H1 H2. unfold item. by rewrite (Hzero key H1 H2). }
  unfold polar_chi_at, order1, order2, order3, order4, order5, DTYPE. simpl.
  rewrite (Hitem "C12"), (Hitem "C21"), (Hitem "C23"), (Hitem "C32"), (Hitem "C34"),
    (Hitem "C41"), (Hitem "C43"), (Hitem "C45"), (Hitem "C52"), (Hitem "C54"),
    (Hitem "C56") by symbols_known.
  by field.
Qed.

Lemma polar_chi_equals_symmetric_chi_witness :
  exists chi,
    calculate_polar_chi [1; 2] [0; PI] 2 (<["C30" := 1]> initial_parameters) = Ok chi /\
    calculate_symmetric_chi [1; 2] 2 (<["C30" := 1]> initial_parameters) = Ok chi.
Proof.
  apply (polar_chi_equals_symmetric_chi [1; 2] [0; PI] 2 (<["C30" := 1]> initial_parameters)).
  - lra.
  - apply well_formed_full, well_formed_insert;
      [exact initial_parameters_well_formed | symbols_known].
  - intros key Hkey Hsym. rewrite lookup_insert_ne.
    + apply list_elem_of_In in Hkey. simpl in Hkey.
      repeat destruct Hkey as [<-|Hkey]; try reflexivity; done.
    + intros <-. apply Hsym. symbols_known.
  - reflexivity.
Defined.

(** ** The CTF with every coefficient at zero *)

Lemma all_zero_full parameters : all_zero parameters -> full parameters.
Proof. intros Hzero key Hkey. rewrite (Hzero key Hkey). by eexists. Qed.

Lemma all_zero_items parameters symbols :
  all_zero parameters -> Forall (fun key => key ∈ polar_symbols) symbols ->
  Forall (fun symbol => item parameters symbol = 0) symbols.
Proof.
  intros Hzero. induction 1 as [|key keys Hkey _ IH]; constructor; [|done].
  unfold item. by rewrite (Hzero key Hkey).
Qed.

Lemma initial_parameters_all_zero : all_zero initial_parameters.
Proof.
  intros key Hkey. apply list_elem_of_In in Hkey. simpl in Hkey.
  repeat destruct Hkey as [<-|Hkey]; try reflexivity; done.
Qed.

(** With all coefficients at zero every group is skipped, whatever the
    shape of [phi]. *)
Lemma calculate_polar_chi_all_zero alpha phi wavelength parameters :
  all_zero parameters ->
  calculate_polar_chi alpha phi wavelength parameters =
    (k ← divide (2 * PI) wavelength; mret (replicate (length alpha) (k * 0))).
Proof.
  intros Hzero. pose proof (all_zero_full _ Hzero) as Hfull.
  unfold calculate_polar_chi.
  do 5 (rewrite order_group_skipped;
        [ cbv beta iota delta [mbind result_bind]
        | done
        | repeat constructor; symbols_known
        | apply all_zero_items; [done | repeat constructor; symbols_known] ]).
  destruct (divide (2 * PI) wavelength) as [k|e]; [|done].
  cbv beta iota delta [mbind result_bind mret result_ret].
  by rewrite fmap_replicate.
Qed.

Section ZeroParameters.

Context {Grid : Type}.
Implicit Types (self : @CTF Grid).

(** With the default settings no envelope is applied. *)
Lemma evaluate_default_settings self alpha phi w :
  default_settings self ->
  accelerator_wavelength (_accelerator self) = Some w ->
  evaluate self alpha phi = calculate_polar_aberrations alpha phi w (_parameters self).
Proof.
  intros (Hcut & _ & Hfocal & Hangular & Hgauss) Hw.
  unfold evaluate, evaluate_aberrations, wavelength.
  rewrite Hw, Hcut, Hfocal, Hangular, Hgauss.
  cbv beta iota delta [mbind result_bind].
  destruct (calculate_polar_aberrations alpha phi w (_parameters self)) as [array|e]; [|done].
  cbv beta iota delta [mbind result_bind mret result_ret below_inf].
  by destruct (decide (0 < 0)) as [Hlt|_]; [lra|].
Qed.

Lemma calculate_polar_aberrations_all_zero alpha phi w parameters :
  all_zero parameters -> w <> 0 ->
  calculate_polar_aberrations alpha phi w parameters =
    Ok (replicate (length alpha) (Complex 1 0)).
Proof.
  intros Hzero Hnz. unfold calculate_polar_aberrations.
  rewrite calculate_polar_chi_all_zero by done.
  unfold divide. destruct (decide (w = 0)) as [|_]; [done|].
  cbv beta iota delta [mbind result_bind mret result_ret].
  f_equal. unfold complex_exponential. rewrite !fmap_replicate. f_equal.
  by rewrite Rmult_0_r, Ropp_0, cos_0, sin_0.
Qed.

(** C5, as amended.  With all 25 coefficients at zero, the optical
    settings at their defaults and a nonzero wavelength, [evaluate]
    returns 1+0i at every element, for every [alpha] and [phi]. *)
Theorem evaluate_zero_parameters self alpha phi w :
  all_zero (_parameters self) ->
  default_settings self ->
  accelerator_wavelength (_accelerator self) = Some w ->
  w <> 0 ->
  evaluate self alpha phi = Ok (replicate (length alpha) (Complex 1 0)).
Proof.
  intros Hzero Hdefault Hw Hnz.
  rewrite (evaluate_default_settings self alpha phi w) by done.
  by apply calculate_polar_aberrations_all_zero.
Qed.

End ZeroParameters.

Lemma evaluate_zero_parameters_witness :
  evaluate example_ctf [1; 2; 3] [0; PI] = Ok (replicate 3 (Complex 1 0)).
Proof.
  apply (evaluate_zero_parameters example_ctf [1; 2; 3] [0; PI] 2).
  - exact initial_parameters_all_zero.
  - by repeat split.
  - reflexivity.
  - lra.
Defined.

(** At a wavelength of zero, with every coefficient at zero and the
    default settings, [evaluate] raises on [2 * pi / wavelength] and
    returns no array of ones. *)
Lemma evaluate_zero_parameters_zero_wavelength :
  all_zero (_parameters zero_wavelength_ctf) /\
  default_settings zero_wavelength_ctf /\
  evaluate zero_wavelength_ctf [1] [0] = Raise ZeroDivisionError /\
  evaluate zero_wavelength_ctf [1] [0] <> Ok [Complex 1 0].
Proof.
  assert (evaluate zero_wavelength_ctf [1] [0] = Raise ZeroDivisionError) as Hraise.
  { unfold evaluate, evaluate_aberrations, wavelength, calculate_polar_aberrations.
    cbv beta iota delta [mbind result_bind zero_wavelength_ctf _accelerator
                         accelerator_wavelength _parameters].
    rewrite calculate_polar_chi_all_zero by exact initial_parameters_all_zero.
    unfold divide. by destruct (decide (0 = 0)). }
  split_and!.
  - exact initial_parameters_all_zero.
  - by repeat split.
  - exact Hraise.
  - by rewrite Hraise.
Qed.

(** ** The aperture *)

(** C8.  With a rolloff of zero the aperture is 1 at every element below
    the cutoff and 0 at every element at or above it; with an infinite
    cutoff it is the array of ones. *)
Theorem aperture_hard_edge (alpha : list R) (cutoff : xfloat) :
  Forall2 (fun a x => (xlt a cutoff -> x = 1) /\ (xge a cutoff -> x = 0))
    alpha (calculate_aperture alpha cutoff 0) /\
  calculate_aperture alpha PosInf 0 = replicate (length alpha) 1.
Proof.
  unfold calculate_aperture.
  destruct (decide (0 < 0)) as [Hlt|_]; [lra|]. split.
  - induction alpha as [|a alpha IH]; simpl; constructor; [|exact IH].
    unfold DTYPE. destruct (decide (xlt a cutoff)) as [Hlt|Hge].
    + split; [done|]. destruct cutoff; simpl in *; [lra|done].
    + split; [done|reflexivity].
  - induction alpha as [|a alpha IH]; [done|].
    cbn [map length replicate]. by rewrite IH.
Qed.

(** With a positive rolloff and a cutoff of zero the taper divides by
    zero, and no element of the result comes from the taper. *)
Lemma aperture_zero_cutoff (alpha : list R) (rolloff : R) :
  0 < rolloff ->
  calculate_aperture alpha (Finite 0) rolloff =
    map (fun a => if decide (0 < a) then 0 else 1) alpha.
Proof.
  intros Hroll. unfold calculate_aperture.
  destruct (decide (0 < rolloff)) as [_|]; [|done].
  replace (rolloff * 0) with 0 by ring. rewrite Rminus_0_r.
  induction alpha as [|a alpha IH]; [done|].
  cbn [map zip_with]. f_equal; [|exact IH].
  unfold DTYPE. by destruct (decide (0 < a)).
Qed.

Example aperture_hard_edge_example :
  calculate_aperture [0; 1; 2; 3] (Finite 2) 0 = [1; 1; 0; 0].
Proof.
  unfold calculate_aperture. destruct (decide (0 < 0)) as [Hlt|_]; [lra|].
  unfold DTYPE, xlt. simpl.
  repeat match goal with |- context [decide (?x < ?y)] =>
           destruct (decide (x < y)); try lra end.
  reflexivity.
Qed.

(** ** The spatial envelope *)

Lemma dchi_dk_radial_gradient p k a f : dchi_dk p k a f = radial_gradient p k a f.
Proof.
  unfold dchi_dk, radial_gradient, azimuthal, sum.
  cbn [map foldr expansion_terms from_option].
  rewrite !INR_IZR_INZ. cbv [Z.of_nat Pos.of_succ_nat Pos.succ].
  rewrite !Rmult_0_l, cos_0. ring.
Qed.

Lemma dchi_dphi_azimuthal_gradient p k a f :
  dchi_dphi p (- k) a f = azimuthal_gradient p k a f.
Proof.
  unfold dchi_dphi, azimuthal_gradient, azimuthal_sin, sum.
  cbn [map foldr expansion_terms from_option Nat.add].
  rewrite !INR_IZR_INZ. cbv [Z.of_nat Pos.of_succ_nat Pos.succ].
  rewrite !Rmult_0_l. f_equal. field.
Qed.

Lemma sign_negative s : s < 0 -> sign s = -1.
Proof. intros Hs. unfold sign. by destruct (decide (s < 0)). Qed.

Lemma spatial_envelope_at_amplifies p k s a f : s < 0 -> 1 <= spatial_envelope_at p k s a f.
Proof.
  intros Hs. unfold spatial_envelope_at. rewrite sign_negative by done.
  rewrite <- exp_0 at 1.
  set (g := radial_gradient p k a f ^ 2 + azimuthal_gradient p k a f ^ 2).
  assert (0 <= g) as Hg by (unfold g; nra).
  assert (0 <= - -1 * (s / 2) ^ 2 * g) as [Hpos|<-] by nra.
  - left. by apply exp_increasing.
  - right. reflexivity.
Qed.

(** *** The gradient expressions as derivatives of the expansion *)

Lemma derivable_pt_lim_sum {A : Type} (g : A -> R -> R) (g' : A -> R) (l : list A) (x : R) :
  (forall t, derivable_pt_lim (g t) x (g' t)) ->
  derivable_pt_lim (fun y => sum (map (fun t => g t y) l)) x (sum (map g' l)).
Proof.
  intros Hg. induction l as [|t l IH]; simpl.
  - apply (derivable_pt_lim_const 0).
  - apply (derivable_pt_lim_plus (g t) (fun y => sum (map (fun t => g t y) l))); auto.
Qed.

Lemma derivable_pt_lim_scaled (c : R) (g : R -> R) (x l : R) :
  derivable_pt_lim g x l -> derivable_pt_lim (fun y => c * g y) x (c * l).
Proof. intros Hg. by apply (derivable_pt_lim_scal g c x l). Qed.

Lemma derivable_pt_lim_affine (m c x : R) : derivable_pt_lim (fun y => m * (y - c)) x m.
Proof.
  intros eps Heps. exists (mkposreal 1 Rlt_0_1). intros h Hh _.
  replace ((m * (x + h - c) - m * (x - c)) / h - m) with 0 by (by field).
  by rewrite Rabs_R0.
Qed.

Lemma azimuthal_derivative p term f :
  derivable_pt_lim (fun y => azimuthal p y term) f (- azimuthal_sin p f term).
Proof.
  destruct term as [[m magnitude] phase]. unfold azimuthal, azimuthal_sin.
  set (c := from_option p 0 phase).
  replace (- (INR m * p magnitude * sin (INR m * (f - c))))
    with (p magnitude * (- sin (INR m * (f - c)) * INR m)) by ring.
  apply derivable_pt_lim_scaled.
  apply (derivable_pt_lim_comp (fun y => INR m * (y - c)) cos).
  - apply derivable_pt_lim_affine.
  - apply derivable_pt_lim_cos.
Qed.

(** The expression [dchi_dphi] of the code, times [alpha], is the
    derivative of the expansion in [phi]. *)
Lemma polar_chi_naive_derivative_phi p wavelength a f :
  derivable_pt_lim (fun y => polar_chi_naive p wavelength a y) f
    (a * azimuthal_gradient p (2 * PI / wavelength) a f).
Proof.
  unfold polar_chi_naive, azimuthal_gradient.
  replace (a * (- (2 * PI / wavelength) *
                sum (map (fun n => 1 / INR (n + 1) * a ^ n *
                                   sum (map (azimuthal_sin p f) (expansion_terms n)))
                         [1; 2; 3; 4; 5]%nat)))
    with (2 * PI / wavelength *
          sum (map (fun n => 1 / INR (n + 1) * a ^ (n + 1) *
                             sum (map (fun t => - azimuthal_sin p f t) (expansion_terms n)))
                   [1; 2; 3; 4; 5]%nat)).
  - apply derivable_pt_lim_scaled.
    apply (derivable_pt_lim_sum
             (fun n y => 1 / INR (n + 1) * a ^ (n + 1) *
                         sum (map (azimuthal p y) (expansion_terms n)))).
    intros n. apply derivable_pt_lim_scaled.
    apply (derivable_pt_lim_sum (fun t y => azimuthal p y t)).
    intros t. apply azimuthal_derivative.
  - unfold sum. cbn [map foldr expansion_terms Nat.add]. ring.
Qed.

(** The expression [dchi_dk] of the code is the derivative of the
    expansion in [alpha]. *)
Lemma polar_chi_naive_derivative_alpha p wavelength a f :
  derivable_pt_lim (fun x => polar_chi_naive p wavelength x f) a
    (radial_gradient p (2 * PI / wavelength) a f).
Proof.
  unfold polar_chi_naive, radial_gradient.
  replace (sum (map (fun n => a ^ n * sum (map (azimuthal p f) (expansion_terms n)))
                    [1; 2; 3; 4; 5]%nat))
    with (sum (map (fun n => sum (map (azimuthal p f) (expansion_terms n)) *
                             (1 / INR (n + 1) * (INR (n + 1) * a ^ Nat.pred (n + 1))))
                   [1; 2; 3; 4; 5]%nat)).
  - apply derivable_pt_lim_scaled.
    apply (derivable_pt_lim_sum
             (fun n x => 1 / INR (n + 1) * x ^ (n + 1) *
                         sum (map (azimuthal p f) (expansion_terms n)))).
    intros n.
    apply (derivable_pt_lim_ext
             (fun x => sum (map (azimuthal p f) (expansion_terms n)) *
                       (1 / INR (n + 1) * x ^ (n + 1)))).
    { intros x. ring. }
    do 2 apply derivable_pt_lim_scaled.
    apply derivable_pt_lim_pow.
  - unfold sum. cbn [map foldr Nat.add Nat.pred].
    rewrite !INR_IZR_INZ. cbv [Z.of_nat Pos.of_succ_nat Pos.succ]. field.
Qed.

(** *** The envelope *)

(** The code computes the envelope of the specification. *)
Lemma calculate_spatial_envelope_elements alpha phi wavelength angular_spread parameters :
  full parameters ->
  calculate_spatial_envelope alpha phi wavelength angular_spread parameters =
    (k ← divide (2 * PI) wavelength;
     mret (zip_with (spatial_envelope_at (item parameters) k angular_spread) alpha phi)).
Proof.
  intros Hfull. unfold calculate_spatial_envelope, divide.
  destruct (decide (wavelength = 0)) as [|Hw]; [done|].
  cbv beta iota delta [mbind result_bind].
  rewrite require_full; [|done|repeat constructor; symbols_known].
  cbv beta iota delta [mret result_ret]. f_equal.
  apply zip_with_pointwise. intros a f. unfold spatial_envelope_at.
  rewrite dchi_dk_radial_gradient.
  replace (-2 * PI / wavelength) with (- (2 * PI / wavelength)) by (by field).
  by rewrite dchi_dphi_azimuthal_gradient.
Qed.

(** C6, as amended.  For a mapping with the 25 coefficients, [alpha] and
    [phi] of one shape, a nonzero wavelength and every angular spread [s],
    [calculate_spatial_envelope] returns an array of the shape of [alpha]
    that holds at every element
    [exp(-sign(s) (s/2)^2 (dchi_dk^2 + dchi_dphi^2))], where [dchi_dk] is
    the derivative of the 5th-order expansion in [alpha] and [dchi_dphi]
    is its derivative in [phi] divided by [alpha]; and for a negative
    spread every returned value is at least 1. *)
Theorem spatial_envelope_formula alpha phi wavelength angular_spread parameters :
  full parameters -> length alpha = length phi -> wavelength <> 0 ->
  let p := item parameters in
  let k := 2 * PI / wavelength in
  exists out,
    calculate_spatial_envelope alpha phi wavelength angular_spread parameters = Ok out /\
    length out = length alpha /\
    out = zip_with (spatial_envelope_at p k angular_spread) alpha phi /\
    (forall a f,
       derivable_pt_lim (fun x => polar_chi_naive p wavelength x f) a
         (radial_gradient p k a f)) /\
    (forall a f,
       derivable_pt_lim (fun y => polar_chi_naive p wavelength a y) f
         (a * azimuthal_gradient p k a f)) /\
    (angular_spread < 0 -> Forall (fun x => 1 <= x) out).
Proof.
  intros Hfull Hlen Hw p k.
  rewrite calculate_spatial_envelope_elements by done.
  unfold divide. destruct (decide (wavelength = 0)) as [|_]; [done|].
  cbv beta iota delta [mbind result_bind mret result_ret].
  eexists. split_and!; [reflexivity| |reflexivity| | |].
  - rewrite length_zip_with. lia.
  - intros a f. apply polar_chi_naive_derivative_alpha.
  - intros a f. apply polar_chi_naive_derivative_phi.
  - intros Hs. clear Hlen.
    revert phi. induction alpha as [|a alpha IH]; intros [|f phi]; simpl; constructor.
    + by apply spatial_envelope_at_amplifies.
    + apply IH.
Qed.

(** A negative spread on a mapping with astigmatism: an array is returned
    and each of its elements is at least 1. *)
Lemma spatial_envelope_formula_witness :
  exists out,
    calculate_spatial_envelope [1; 2] [0; PI] 2 (-1) (<["C12" := 1]> initial_parameters)
      = Ok out /\
    length out = 2%nat /\
    Forall (fun x => 1 <= x) out.
Proof.
  destruct (spatial_envelope_formula [1; 2] [0; PI] 2 (-1) (<["C12" := 1]> initial_parameters))
    as (out & Heq & Hlength & _ & _ & _ & Hamplifies).
  - apply well_formed_full, well_formed_insert;
      [exact initial_parameters_well_formed | symbols_known].
  - reflexivity.
  - lra.
  - exists out. split_and!; [exact Heq|exact Hlength|]. apply Hamplifies. lra.
Defined.

(** The two gradient expressions for pure astigmatism, C12 = 1, at
    [alpha = 2] and [phi = pi/4] with [2 pi / lambda = 1]. *)
Lemma astigmatism_gradients :
  let p := item (<["C12" := 1]> initial_parameters) in
  radial_gradient p (2 * PI / (2 * PI)) 2 (PI / 4) = 0 /\
  azimuthal_gradient p (2 * PI / (2 * PI)) 2 (PI / 4) = - 2.
Proof.
  intros p.
  assert (2 * PI / (2 * PI) = 1) as -> by (field; apply PI_neq0).
  unfold radial_gradient, azimuthal_gradient, azimuthal, azimuthal_sin, sum.
  cbn [map foldr expansion_terms from_option Nat.add].
  assert (p "C10" = 0) as -> by reflexivity.
  assert (p "C12" = 1) as -> by reflexivity.
  assert (p "phi12" = 0) as -> by reflexivity.
  assert (p "C21" = 0) as -> by reflexivity.
  assert (p "C23" = 0) as -> by reflexivity.
  assert (p "C30" = 0) as -> by reflexivity.
  assert (p "C32" = 0) as -> by reflexivity.
  assert (p "C34" = 0) as -> by reflexivity.
  assert (p "C41" = 0) as -> by reflexivity.
  assert (p "C43" = 0) as -> by reflexivity.
  assert (p "C45" = 0) as -> by reflexivity.
  assert (p "C50" = 0) as -> by reflexivity.
  assert (p "C52" = 0) as -> by reflexivity.
  assert (p "C54" = 0) as -> by reflexivity.
  assert (p "C56" = 0) as -> by reflexivity.
  rewrite !INR_IZR_INZ. cbv [Z.of_nat Pos.of_succ_nat Pos.succ].
  replace (2 * (PI / 4 - 0)) with (PI / 2) by field.
  rewrite cos_PI2, sin_PI2. split; field.
Qed.

(** C6 as worded, with [dchi/dphi] the derivative of the expansion in
    [phi], does not hold.  For pure astigmatism, C12 = 1, at [alpha = 2],
    [phi = pi/4], a wavelength of [2 pi] and a spread of 2, the derivative
    of the expansion is 0 in [alpha] and -4 in [phi], so the worded
    formula gives [exp(-16)]; the code returns [exp(-4)], having squared
    -2, the derivative in [phi] divided by [alpha]. *)
Lemma spatial_envelope_formula_phi_derivative :
  let parameters := <["C12" := 1]> initial_parameters in
  let p := item parameters in
  derivable_pt_lim (fun x => polar_chi_naive p (2 * PI) x (PI / 4)) 2 0 /\
  derivable_pt_lim (fun y => polar_chi_naive p (2 * PI) 2 y) (PI / 4) (- 4) /\
  calculate_spatial_envelope [2] [PI / 4] (2 * PI) 2 parameters = Ok [exp (- 4)] /\
  calculate_spatial_envelope [2] [PI / 4] (2 * PI) 2 parameters <>
    Ok [exp (- sign 2 * (2 / 2) ^ 2 * (0 ^ 2 + (- 4) ^ 2))].
Proof.
  cbv zeta.
  pose proof astigmatism_gradients as Hgradients. cbv zeta in Hgradients.
  destruct Hgradients as [Hradial Hazimuthal].
  assert (calculate_spatial_envelope [2] [PI / 4] (2 * PI) 2
            (<["C12" := 1]> initial_parameters) = Ok [exp (- 4)]) as Hcode.
  { rewrite calculate_spatial_envelope_elements
      by (apply well_formed_full, well_formed_insert;
            [exact initial_parameters_well_formed | symbols_known]).
    unfold divide. destruct (decide (2 * PI = 0)) as [Hzero|_].
    { pose proof PI_RGT_0. lra. }
    cbv beta iota delta [mbind result_bind mret result_ret zip_with].
    unfold spatial_envelope_at. rewrite Hradial, Hazimuthal.
    unfold sign. destruct (decide (2 < 0)); [lra|]. destruct (decide (2 = 0)); [lra|].
    do 3 f_equal. field. }
  split_and!.
  - rewrite <- Hradial. apply polar_chi_naive_derivative_alpha.
  - replace (- 4)
      with (2 * azimuthal_gradient (item (<["C12" := 1]> initial_parameters))
                  (2 * PI / (2 * PI)) 2 (PI / 4))
      by (rewrite Hazimuthal; ring).
    apply polar_chi_naive_derivative_phi.
  - exact Hcode.
  - rewrite Hcode. intros [= Hexp]. apply exp_inv in Hexp.
    unfold sign in Hexp. destruct (decide (2 < 0)); [lra|].
    destruct (decide (2 = 0)); lra.
Qed.

(** ** Coefficient conversion *)

Lemma sqrt2_sqr : sqrt 2 * sqrt 2 = 2.
Proof. apply sqrt_sqrt. lra. Qed.

Lemma sqrt2_bounds : 1 < sqrt 2 < 2.
Proof.
  pose proof sqrt2_sqr. pose proof Rlt_sqrt2_0. split; nra.
Qed.

Lemma sqrt8 : sqrt 8 = 2 * sqrt 2.
Proof.
  replace 8 with ((2 * sqrt 2) * (2 * sqrt 2)) by (pose proof sqrt2_sqr; nra).
  apply sqrt_square. pose proof Rlt_sqrt2_0. lra.
Qed.

Lemma K_value : K = 1 + sqrt 2.
Proof.
  unfold K. rewrite sqrt8.
  replace (3 + 2 * sqrt 2) with ((1 + sqrt 2) * (1 + sqrt 2)) by (pose proof sqrt2_sqr; nra).
  apply sqrt_square. pose proof Rlt_sqrt2_0. lra.
Qed.

Lemma K_inverse : 1 / K = sqrt 2 - 1.
Proof.
  rewrite K_value. pose proof sqrt2_sqr. pose proof Rlt_sqrt2_0.
  apply Rmult_eq_reg_r with (1 + sqrt 2); [|lra].
  replace (1 / (1 + sqrt 2) * (1 + sqrt 2)) with 1 by (field; lra). nra.
Qed.

(** The factor in front of [C34b] is 1. *)
Lemma K_factor : 1 / 4 * (1 + K ^ 2) ^ 2 / (K ^ 3 - K) = 1.
Proof.
  rewrite K_value. pose proof sqrt2_sqr as H2. pose proof Rlt_sqrt2_0.
  assert ((1 + sqrt 2) ^ 3 - (1 + sqrt 2) = 6 + 4 * sqrt 2) as -> by nra.
  assert ((1 + (1 + sqrt 2) ^ 2) ^ 2 = 4 * (6 + 4 * sqrt 2)) as -> by nra.
  field. lra.
Qed.

(** The angle in [C34b] is a quarter turn: [4 * arctan(1 / K) = pi / 2]. *)
Lemma K_angle : 4 * atan (1 / K) = PI / 2.
Proof.
  rewrite K_inverse. set (t := sqrt 2 - 1).
  pose proof sqrt2_sqr as H2. pose proof sqrt2_bounds as [Hlo Hhi].
  pose proof PI_RGT_0 as Hpi.
  assert (0 < t < 1) as [Ht0 Ht1] by (unfold t; lra).
  assert (0 < atan t < PI / 4) as [Ha0 Ha1].
  { split.
    - rewrite <- atan_0. by apply atan_increasing.
    - rewrite <- atan_1. by apply atan_increasing. }
  assert (2 * atan t = PI / 4) as Hdouble.
  { apply tan_inj; [lra|lra|].
    rewrite tan_PI4, tan_2a, tan_atan.
    - unfold t. field_simplify_eq; nra.
    - apply Rgt_not_eq, cos_gt_0; lra.
    - apply Rgt_not_eq, cos_gt_0; lra.
    - rewrite tan_atan. unfold t. nra. }
  lra.
Qed.

Lemma magnitude_of_pair (c x : R) : sqrt ((c * cos x) ^ 2 + (c * sin x) ^ 2) = Rabs c.
Proof.
  rewrite <- sqrt_Rsqr_abs. f_equal. unfold Rsqr.
  pose proof (sin2_cos2 x) as H. unfold Rsqr in H. nra.
Qed.

(** What the round trip returns for the six magnitudes: the absolute
    value, with the sign the code fixes for each of them. *)
Lemma round_trip_values (polar : gmap string R) :
  let p := item polar in
  let p' := item (cartesian2polar (polar2cartesian polar)) in
  p' "C12" = - Rabs (p "C12") /\
  p' "C21" = Rabs (p "C21") /\
  p' "C23" = Rabs (p "C23") /\
  p' "C30" = p "C30" /\
  p' "C32" = - Rabs (p "C32") /\
  p' "C34" = Rabs (p "C34").
Proof.
  intros p p'.
  assert (p' "C12" = - sqrt ((- p "C12" * cos (2 * p "phi12")) ^ 2 +
                             (p "C12" * sin (2 * p "phi12")) ^ 2)) as -> by reflexivity.
  assert (p' "C21" = sqrt ((p "C21" * sin (p "phi21")) ^ 2 +
                           (p "C21" * cos (p "phi21")) ^ 2)) as -> by reflexivity.
  assert (p' "C23" = sqrt ((- p "C23" * sin (3 * p "phi23")) ^ 2 +
                           (p "C23" * cos (3 * p "phi23")) ^ 2)) as -> by reflexivity.
  assert (p' "C30" = p "C30") as -> by reflexivity.
  assert (p' "C32" = - sqrt ((- p "C32" * cos (2 * p "phi32")) ^ 2 +
                             (p "C32" * cos (PI / 2 - 2 * p "phi32")) ^ 2)) as -> by reflexivity.
  assert (p' "C34" = sqrt ((p "C34" * cos (-4 * p "phi34")) ^ 2 +
                           (1 / 4 * (1 + K ^ 2) ^ 2 / (K ^ 3 - K) * p "C34" *
                            cos (4 * atan (1 / K) - 4 * p "phi34")) ^ 2)) as -> by reflexivity.
  split_and!.
  - rewrite <- (magnitude_of_pair (p "C12") (2 * p "phi12")). do 2 f_equal. ring.
  - rewrite <- (magnitude_of_pair (p "C21") (p "phi21")). f_equal. ring.
  - rewrite <- (magnitude_of_pair (p "C23") (3 * p "phi23")). f_equal. ring.
  - reflexivity.
  - rewrite cos_shift.
    rewrite <- (magnitude_of_pair (p "C32") (2 * p "phi32")). do 2 f_equal. ring.
  - rewrite K_factor, K_angle, cos_shift.
    replace (-4 * p "phi34") with (- (4 * p "phi34")) by ring. rewrite cos_neg.
    rewrite <- (magnitude_of_pair (p "C34") (4 * p "phi34")). f_equal. ring.
Qed.

(** *** The phases after the round trip *)

Lemma hypot_positive (x y : R) :
  0 < x -> sqrt (x ^ 2 + y ^ 2) = x * sqrt (1 + (y / x)²).
Proof.
  intros Hx.
  assert (0 <= 1 + (y / x)²) as Hpos by (unfold Rsqr; nra).
  apply sqrt_lem_1.
  - nra.
  - pose proof (sqrt_pos (1 + (y / x)²)). nra.
  - replace (x * sqrt (1 + (y / x)²) * (x * sqrt (1 + (y / x)²)))
      with (x * x * (sqrt (1 + (y / x)²) * sqrt (1 + (y / x)²))) by ring.
    rewrite sqrt_sqrt by done. unfold Rsqr. field. lra.
Qed.

Lemma hypot_negative (x y : R) :
  x < 0 -> sqrt (x ^ 2 + y ^ 2) = - x * sqrt (1 + (y / x)²).
Proof.
  intros Hx.
  replace (x ^ 2 + y ^ 2) with ((- x) ^ 2 + y ^ 2) by ring.
  rewrite hypot_positive by lra. do 2 f_equal. unfold Rsqr. field. lra.
Qed.

Lemma sqrt_one_plus_sqr_nonzero (t : R) : sqrt (1 + t²) <> 0.
Proof.
  apply Rgt_not_eq, sqrt_lt_R0. unfold Rsqr. nra.
Qed.

(** [arctan2] is the angle of the point: with the distance to the origin
    it gives the coordinates back. *)
Lemma arctan2_cos (y x : R) : sqrt (x ^ 2 + y ^ 2) * cos (arctan2 y x) = x.
Proof.
  pose proof (sqrt_one_plus_sqr_nonzero (y / x)) as Hs.
  unfold arctan2.
  destruct (decide (0 < x)) as [Hx|Hx]; [|destruct (decide (x < 0)) as [Hx'|Hx']].
  - rewrite hypot_positive, cos_atan by done. by field.
  - rewrite hypot_negative by done.
    destruct (decide (y < 0)).
    + unfold Rminus. rewrite cos_plus, cos_neg, sin_neg, cos_PI, sin_PI, cos_atan. by field.
    + rewrite neg_cos, cos_atan. by field.
  - assert (x = 0) as -> by lra.
    replace (0 ^ 2 + y ^ 2) with (y ^ 2) by ring.
    destruct (decide (0 < y)); [|destruct (decide (y < 0))].
    + rewrite cos_PI2. ring.
    + rewrite cos_neg, cos_PI2. ring.
    + assert (y = 0) as -> by lra.
      replace (0 ^ 2) with 0 by ring. rewrite sqrt_0. ring.
Qed.

Lemma arctan2_sin (y x : R) : sqrt (x ^ 2 + y ^ 2) * sin (arctan2 y x) = y.
Proof.
  pose proof (sqrt_one_plus_sqr_nonzero (y / x)) as Hs.
  unfold arctan2.
  destruct (decide (0 < x)) as [Hx|Hx]; [|destruct (decide (x < 0)) as [Hx'|Hx']].
  - rewrite hypot_positive, sin_atan by done. field; repeat split; first [assumption | lra].
  - rewrite hypot_negative by done.
    destruct (decide (y < 0)).
    + unfold Rminus. rewrite sin_plus, cos_neg, sin_neg, cos_PI, sin_PI, sin_atan.
      field; repeat split; first [assumption | lra].
    + rewrite neg_sin, sin_atan. field; repeat split; first [assumption | lra].
  - assert (x = 0) as -> by lra.
    replace (0 ^ 2 + y ^ 2) with (y ^ 2) by ring.
    destruct (decide (0 < y)); [|destruct (decide (y < 0))].
    + rewrite sin_PI2, sqrt_pow2 by lra. ring.
    + rewrite sin_neg, sin_PI2.
      replace (y ^ 2) with ((- y) ^ 2) by ring. rewrite sqrt_pow2 by lra. ring.
    + assert (y = 0) as -> by lra.
      replace (0 ^ 2) with 0 by ring. rewrite sqrt_0. ring.
Qed.

(** A term [M cos(m (f - phase))] rebuilt from the distance [r] and the
    angle [theta] of a Cartesian pair. *)
Lemma rebuilt_term (r theta m f a b : R) :
  r * cos theta = a -> r * sin theta = b ->
  r * cos (m * f - theta) = a * cos (m * f) + b * sin (m * f).
Proof.
  intros <- <-. rewrite cos_minus. ring.
Qed.

(** The phase angles returned by the round trip differ from the original
    ones only in ways that leave every term of the expansion as it was:
    [C' cos(m (phi - phi')) = C cos(m (phi - phi0))] at every azimuth. *)
Lemma round_trip_terms (polar : gmap string R) (f : R) :
  let p := item polar in
  let p' := item (cartesian2polar (polar2cartesian polar)) in
  p' "C12" * cos (2 * (f - p' "phi12")) = p "C12" * cos (2 * (f - p "phi12")) /\
  p' "C21" * cos (f - p' "phi21") = p "C21" * cos (f - p "phi21") /\
  p' "C23" * cos (3 * (f - p' "phi23")) = p "C23" * cos (3 * (f - p "phi23")) /\
  p' "C32" * cos (2 * (f - p' "phi32")) = p "C32" * cos (2 * (f - p "phi32")) /\
  p' "C34" * cos (4 * (f - p' "phi34")) = p "C34" * cos (4 * (f - p "phi34")).
Proof.
  intros p p'.
  set (C12a := - p "C12" * cos (2 * p "phi12")).
  set (C12b := p "C12" * sin (2 * p "phi12")).
  set (C21a := p "C21" * sin (p "phi21")).
  set (C21b := p "C21" * cos (p "phi21")).
  set (C23a := - p "C23" * sin (3 * p "phi23")).
  set (C23b := p "C23" * cos (3 * p "phi23")).
  set (C32a := - p "C32" * cos (2 * p "phi32")).
  set (C32b := p "C32" * cos (PI / 2 - 2 * p "phi32")).
  set (C34a := p "C34" * cos (-4 * p "phi34")).
  set (C34b := 1 / 4 * (1 + K ^ 2) ^ 2 / (K ^ 3 - K) * p "C34" *
               cos (4 * atan (1 / K) - 4 * p "phi34")).
  assert (p' "C12" = - sqrt (C12a ^ 2 + C12b ^ 2)) as -> by reflexivity.
  assert (p' "phi12" = - arctan2 C12b C12a / 2) as -> by reflexivity.
  assert (p' "C21" = sqrt (C21a ^ 2 + C21b ^ 2)) as -> by reflexivity.
  assert (p' "phi21" = arctan2 C21a C21b) as -> by reflexivity.
  assert (p' "C23" = sqrt (C23a ^ 2 + C23b ^ 2)) as -> by reflexivity.
  assert (p' "phi23" = - arctan2 C23a C23b / 3) as -> by reflexivity.
  assert (p' "C32" = - sqrt (C32a ^ 2 + C32b ^ 2)) as -> by reflexivity.
  assert (p' "phi32" = - arctan2 C32b C32a / 2) as -> by reflexivity.
  assert (p' "C34" = sqrt (C34a ^ 2 + C34b ^ 2)) as -> by reflexivity.
  assert (p' "phi34" = arctan2 C34b C34a / 4) as -> by reflexivity.
  assert (C32b = p "C32" * sin (2 * p "phi32")) as HC32b
    by (unfold C32b; by rewrite cos_shift).
  assert (C34a = p "C34" * cos (4 * p "phi34")) as HC34a.
  { unfold C34a. replace (-4 * p "phi34") with (- (4 * p "phi34")) by ring.
    by rewrite cos_neg. }
  assert (C34b = p "C34" * sin (4 * p "phi34")) as HC34b.
  { unfold C34b. rewrite K_factor, K_angle, cos_shift. ring. }
  split_and!.
  - replace (2 * (f - - arctan2 C12b C12a / 2)) with (2 * f - - arctan2 C12b C12a) by field.
    rewrite Ropp_mult_distr_l_reverse.
    rewrite (rebuilt_term _ _ 2 f C12a (- C12b)).
    + replace (2 * (f - p "phi12")) with (2 * f - 2 * p "phi12") by ring.
      rewrite cos_minus. unfold C12a, C12b. ring.
    + rewrite cos_neg. apply arctan2_cos.
    + rewrite sin_neg, Ropp_mult_distr_r_reverse. f_equal. apply arctan2_sin.
  - replace (f - arctan2 C21a C21b) with (1 * f - arctan2 C21a C21b) by ring.
    rewrite (rebuilt_term _ _ 1 f C21b C21a).
    + rewrite Rmult_1_l, cos_minus. unfold C21a, C21b. ring.
    + rewrite Rplus_comm. apply arctan2_cos.
    + rewrite Rplus_comm. apply arctan2_sin.
  - replace (3 * (f - - arctan2 C23a C23b / 3)) with (3 * f - - arctan2 C23a C23b) by field.
    rewrite (rebuilt_term _ _ 3 f C23b (- C23a)).
    + replace (3 * (f - p "phi23")) with (3 * f - 3 * p "phi23") by ring.
      rewrite cos_minus. unfold C23a, C23b. ring.
    + rewrite cos_neg, Rplus_comm. apply arctan2_cos.
    + rewrite sin_neg, Ropp_mult_distr_r_reverse, Rplus_comm. f_equal. apply arctan2_sin.
  - replace (2 * (f - - arctan2 C32b C32a / 2)) with (2 * f - - arctan2 C32b C32a) by field.
    rewrite Ropp_mult_distr_l_reverse.
    rewrite (rebuilt_term _ _ 2 f C32a (- C32b)).
    + replace (2 * (f - p "phi32")) with (2 * f - 2 * p "phi32") by ring.
      rewrite cos_minus, HC32b. unfold C32a. ring.
    + rewrite cos_neg. apply arctan2_cos.
    + rewrite sin_neg, Ropp_mult_distr_r_reverse. f_equal. apply arctan2_sin.
  - replace (4 * (f - arctan2 C34b C34a / 4)) with (4 * f - arctan2 C34b C34a) by field.
    rewrite (rebuilt_term _ _ 4 f C34a C34b).
    + replace (4 * (f - p "phi34")) with (4 * f - 4 * p "phi34") by ring.
      rewrite cos_minus, HC34a, HC34b. ring.
    + apply arctan2_cos.
    + apply arctan2_sin.
Qed.

(** C2.  The round trip [cartesian2polar(polar2cartesian(p))] returns the
    magnitudes (absolute values) of C12, C21, C23, C30, C32 and C34 of [p],
    exactly over the reals and so within any tolerance; the signs and the
    phase angles it returns differ from the original ones only by the
    conventions of the formulas, which leave each term
    [C cos(m (phi - phi0))] of the expansion unchanged. *)
Theorem round_trip_magnitudes (polar : gmap string R) :
  let p := item polar in
  let p' := item (cartesian2polar (polar2cartesian polar)) in
  (Rabs (p' "C12") = Rabs (p "C12") /\
   Rabs (p' "C21") = Rabs (p "C21") /\
   Rabs (p' "C23") = Rabs (p "C23") /\
   Rabs (p' "C30") = Rabs (p "C30") /\
   Rabs (p' "C32") = Rabs (p "C32") /\
   Rabs (p' "C34") = Rabs (p "C34")) /\
  (forall f,
     p' "C12" * cos (2 * (f - p' "phi12")) = p "C12" * cos (2 * (f - p "phi12")) /\
     p' "C21" * cos (f - p' "phi21") = p "C21" * cos (f - p "phi21") /\
     p' "C23" * cos (3 * (f - p' "phi23")) = p "C23" * cos (3 * (f - p "phi23")) /\
     p' "C32" * cos (2 * (f - p' "phi32")) = p "C32" * cos (2 * (f - p "phi32")) /\
     p' "C34" * cos (4 * (f - p' "phi34")) = p "C34" * cos (4 * (f - p "phi34"))).
Proof.
  intros p p'. split.
  - destruct (round_trip_values polar) as (H12 & H21 & H23 & H30 & H32 & H34).
    fold p p' in H12, H21, H23, H30, H32, H34.
    rewrite H12, H21, H23, H30, H32, H34.
    rewrite !Rabs_Ropp, !Rabs_Rabsolu. repeat split; reflexivity.
  - intros f. apply round_trip_terms.
Qed.

(** A mapping with positive magnitudes: C12 comes back negated, with its
    phase shifted by a quarter turn. *)
Example round_trip_example :
  let polar : gmap string R := {[ "C12" := 1 ]} in
  let polar' := cartesian2polar (polar2cartesian polar) in
  polar' !! "C12" = Some (- 1) /\ polar' !! "phi12" = Some (- (PI / 2)).
Proof.
  intros polar polar'.
  assert (polar' !! "C12" =
          Some (- sqrt ((- 1 * cos (2 * 0)) ^ 2 + (1 * sin (2 * 0)) ^ 2))) as ->
    by reflexivity.
  assert (polar' !! "phi12" =
          Some (- arctan2 (1 * sin (2 * 0)) (- 1 * cos (2 * 0)) / 2)) as ->
    by reflexivity.
  rewrite Rmult_0_r, cos_0, sin_0.
  replace ((- 1 * 1) ^ 2 + (1 * 0) ^ 2) with 1 by ring. rewrite sqrt_1.
  split; [done|]. f_equal. unfold arctan2.
  destruct (decide (0 < - 1 * 1)) as [|_]; [lra|].
  destruct (decide (- 1 * 1 < 0)) as [_|]; [|lra].
  destruct (decide (1 * 0 < 0)) as [|_]; [lra|].
  replace (1 * 0 / (- 1 * 1)) with 0 by field. rewrite atan_0. field.
Qed.

(** ** The cached grid evaluation *)

Section CacheProperties.

Context {Grid : Type} `{!GridInterface Grid}.
Implicit Types (self : @CTF Grid) (grid : Grid).

Lemma cache_lookup_insert (c : Cache) grid array :
  (0 < capacity c)%nat -> cache_lookup (cache_insert c grid array) grid = Some array.
Proof.
  intros Hcap. unfold cache_lookup, cache_insert. simpl.
  destruct (capacity c) as [|n]; [lia|]. simpl.
  by destruct (decide (grid = grid)).
Qed.

Lemma cache_lookup_clear (c : Cache) grid : cache_lookup (cache_clear c) grid = None.
Proof. reflexivity. Qed.

(** A call that finds an entry returns it and leaves the object alone:
    the body is not run. *)
Lemma evaluate_on_grid_hit self grid array :
  cache_lookup (cache self) grid = Some array ->
  evaluate_on_grid self grid = (self, Ok array).
Proof. intros Hhit. unfold evaluate_on_grid, cached_method. by rewrite Hhit. Qed.

(** A call that finds no entry runs the body. *)
Lemma evaluate_on_grid_miss self grid :
  cache_lookup (cache self) grid = None ->
  (evaluate_on_grid self grid).2 = evaluate_on_grid_body self grid.
Proof.
  intros Hmiss. unfold evaluate_on_grid, cached_method. rewrite Hmiss.
  by destruct (evaluate_on_grid_body self grid).
Qed.

(** A successful call leaves its array in the cache under the grid. *)
Lemma evaluate_on_grid_caches self grid self' array :
  (0 < capacity (cache self))%nat ->
  evaluate_on_grid self grid = (self', Ok array) ->
  cache_lookup (cache self') grid = Some array.
Proof.
  intros Hcap Hfirst. unfold evaluate_on_grid, cached_method in Hfirst.
  destruct (cache_lookup (cache self) grid) as [cached|] eqn:Hlookup.
  - by injection Hfirst as <- <-.
  - destruct (evaluate_on_grid_body self grid) as [computed|e]; [|done].
    injection Hfirst as <- <-. simpl. by apply cache_lookup_insert.
Qed.

(** C3.  After a successful [evaluate_on_grid(grid)], a second call with
    the same grid and nothing changed in between finds the array in the
    cache and returns that same array, leaving the object as it is. *)
Theorem evaluate_on_grid_idempotent self grid self' array :
  (0 < capacity (cache self))%nat ->
  evaluate_on_grid self grid = (self', Ok array) ->
  cache_lookup (cache self') grid = Some array /\
  evaluate_on_grid self' grid = (self', Ok array).
Proof.
  intros Hcap Hfirst.
  pose proof (evaluate_on_grid_caches self grid self' array Hcap Hfirst) as Hhit.
  split; [done|]. by apply evaluate_on_grid_hit.
Qed.

(** *** Notification *)

Lemma run_callbacks_cache (cbs : list callback) self notifier change :
  cache (foldl (fun self cb => run_callback cb self notifier change) self cbs) =
    if decide (cbs = []) then cache self else cache_clear (cache self).
Proof.
  revert self. induction cbs as [|[] cbs IH]; intros self; simpl; [done|].
  rewrite IH. simpl. by destruct (decide (cbs = [])).
Qed.

(** A notification of an observed object leaves no entry in the cache. *)
Lemma notify_clears_cache self notifier change :
  observed self -> entries (cache (notify self notifier change)) = [].
Proof.
  unfold observed, notify. intros Hobs. rewrite run_callbacks_cache.
  destruct (decide (callbacks (changed self) = [])) as [Hnil|_]; [|done].
  rewrite Hnil in Hobs. by apply elem_of_nil in Hobs.
Qed.

(** Every property setter notifies: a successful write through a
    coefficient, an alias or a setting property empties the cache, also
    when the value written is the old one. *)
Lemma property_setters_clear_cache self (m : mutation) self' :
  observed self ->
  (forall parameters, m <> SetParameters parameters) ->
  (forall name value, m = SetProperty name value -> is_property name) ->
  mutate self m = (self', Ok tt) ->
  entries (cache self') = [].
Proof.
  intros Hobs Hbatch Hprop.
  destruct m as [name value|value|value|value|value|value|parameters]; simpl.
  - destruct (decide (name = "defocus")) as [->|Hname].
    + unfold set_defocus, watched_property. destruct (defocus self); [|done].
      intros [= <-]. by apply notify_clears_cache.
    + destruct (Hprop name value eq_refl) as [|[key ->]]; [done|].
      unfold parametrization_setter.
      destruct (parametrization_getter key self); [|done].
      intros [= <-]. by apply notify_clears_cache.
  - intros [= <-]. by apply notify_clears_cache.
  - intros [= <-]. by apply notify_clears_cache.
  - intros [= <-]. by apply notify_clears_cache.
  - intros [= <-]. by apply notify_clears_cache.
  - intros [= <-]. by apply notify_clears_cache.
  - by destruct (Hbatch parameters).
Qed.

(** [set_parameters] writes the store and nothing else: no notification
    is counted, no callback runs, the cache keeps its entries. *)
Lemma set_parameters_no_notification self parameters :
  let self' := (set_parameters self parameters).1 in
  changed self' = changed self /\ cache self' = cache self.
Proof.
  unfold set_parameters.
  by destruct (set_parameters_loop (_parameters self) parameters).
Qed.

(** So a grid evaluation cached before [set_parameters] is returned after
    it, whatever was written. *)
Lemma evaluate_on_grid_after_set_parameters self grid self1 array parameters :
  (0 < capacity (cache self))%nat ->
  evaluate_on_grid self grid = (self1, Ok array) ->
  let self2 := (set_parameters self1 parameters).1 in
  evaluate_on_grid self2 grid = (self2, Ok array).
Proof.
  intros Hcap Hfirst self2.
  pose proof (evaluate_on_grid_caches self grid self1 array Hcap Hfirst) as Hhit.
  apply evaluate_on_grid_hit.
  destruct (set_parameters_no_notification self1 parameters) as [_ Hcache].
  fold self2 in Hcache. by rewrite Hcache.
Qed.

(** *** The invariant of the object *)

Lemma set_parameters_loop_well_formed parameters store :
  well_formed store -> well_formed (set_parameters_loop store parameters).1.
Proof.
  revert store. induction parameters as [|[symbol value] rest IH]; intros store Hwf; [done|].
  simpl. pose proof (set_parameter_spec store symbol value Hwf) as Hstep.
  destruct (canonical symbol); rewrite Hstep; [|done].
  apply IH. by apply apply_entry_well_formed.
Qed.

Lemma set_parameters_constructed self parameters :
  constructed self -> constructed (set_parameters self parameters).1.
Proof.
  intros (Hwf & Hcap & Hobs). unfold set_parameters.
  pose proof (set_parameters_loop_well_formed parameters _ Hwf) as Hwf'.
  by destruct (set_parameters_loop (_parameters self) parameters).
Qed.

Lemma run_callbacks_frame (cbs : list callback) self notifier change :
  let self' := foldl (fun self cb => run_callback cb self notifier change) self cbs in
  _parameters self' = _parameters self /\ changed self' = changed self /\
  capacity (cache self') = capacity (cache self).
Proof.
  revert self. induction cbs as [|[] cbs IH]; intros self; simpl; [done|].
  destruct (IH (with_cache self (cache_clear (cache self)))) as (-> & -> & ->). done.
Qed.

Lemma notify_constructed self notifier change :
  constructed self -> constructed (notify self notifier change).
Proof.
  intros (Hwf & Hcap & Hobs). unfold constructed, observed, notify.
  destruct (run_callbacks_frame (callbacks (changed self))
              (with_changed self (mkEvent (callbacks (changed self))
                                    (S (_notify_count (changed self)))))
              notifier change) as (-> & -> & ->).
  done.
Qed.

Lemma installed_property_symbol name key :
  installed_property name = Some key -> key ∈ polar_symbols.
Proof.
  unfold installed_property.
  destruct (decide (name ∈ polar_symbols)); [by intros [= <-]|].
  destruct (decide (name = "defocus")); [done|]. apply alias_of_target.
Qed.

Lemma mutate_constructed self m :
  constructed self -> constructed (mutate self m).1.
Proof.
  intros Hc. pose proof Hc as (Hwf & Hcap & Hobs).
  destruct m as [name value|value|value|value|value|value|parameters]; simpl.
  - destruct (decide (name = "defocus")) as [->|Hname].
    + unfold set_defocus, watched_property. destruct (defocus self); [|done].
      simpl. apply notify_constructed. split_and!; try done.
      apply well_formed_insert; [done|symbols_known].
    + destruct (installed_property name) as [key|] eqn:Hkey.
      * apply installed_property_symbol in Hkey.
        unfold parametrization_setter. destruct (parametrization_getter key self); [|done].
        simpl. apply notify_constructed. split_and!; try done.
        by apply well_formed_insert.
      * unfold set_setting. repeat case_decide; try done; by apply notify_constructed.
  - by apply notify_constructed.
  - by apply notify_constructed.
  - by apply notify_constructed.
  - by apply notify_constructed.
  - by apply notify_constructed.
  - pose proof (set_parameters_constructed self parameters Hc) as Hc'.
    by destruct (set_parameters self parameters).
Qed.

Lemma evaluate_on_grid_constructed self grid :
  constructed self -> constructed (evaluate_on_grid self grid).1.
Proof.
  intros (Hwf & Hcap & Hobs). unfold evaluate_on_grid, cached_method.
  destruct (cache_lookup (cache self) grid); [done|].
  by destruct (evaluate_on_grid_body self grid).
Qed.

Lemma CTF_init_constructed cutoff rolloff focal_spread angular_spread gaussian_spread
    wavelength parameters self :
  CTF_init cutoff rolloff focal_spread angular_spread gaussian_spread wavelength parameters
    = Ok self ->
  constructed self.
Proof.
  unfold CTF_init, set_parameters. simpl.
  pose proof (set_parameters_loop_well_formed parameters _ initial_parameters_well_formed)
    as Hwf.
  destruct (set_parameters_loop initial_parameters parameters) as [store [[]|e]]; [|done].
  intros [= <-]. split_and!; [done|done|]. unfold observed. simpl. by constructor.
Qed.

(** X24.  Every object a caller can get is [constructed]: the hypotheses
    on the object in the statements of this file hold of it. *)
Lemma reachable_constructed self : reachable self -> constructed self.
Proof.
  induction 1 as [? ? ? ? ? ? ? self Hinit|self m self' outcome _ IH Hm
                  |self grid self' outcome _ IH He].
  - by eapply CTF_init_constructed.
  - pose proof (mutate_constructed self m IH) as Hc. by rewrite Hm in Hc.
  - pose proof (evaluate_on_grid_constructed self grid IH) as Hc. by rewrite He in Hc.
Qed.

End CacheProperties.

(** ** A run on a concrete grid *)

Lemma example_first_evaluation :
  evaluate_on_grid example_ctf 0%nat = (evaluated_ctf, Ok [Complex 1 0]).
Proof.
  unfold evaluate_on_grid, cached_method.
  change (cache_lookup (cache example_ctf) 0%nat) with (@None (list complex)).
  assert (evaluate_on_grid_body example_ctf 0%nat = Ok [Complex 1 0]) as ->; [|done].
  unfold evaluate_on_grid_body, wavelength.
  cbn [check_is_defined spatial_frequencies example_grid example_ctf _accelerator
       accelerator_wavelength mbind result_bind map outer list_bind].
  rewrite (evaluate_default_settings example_ctf _ _ 2); [|by repeat split|done].
  rewrite calculate_polar_aberrations_all_zero;
    [done | exact initial_parameters_all_zero | lra].
Qed.

Lemma evaluate_on_grid_idempotent_witness :
  cache_lookup (cache evaluated_ctf) 0%nat = Some [Complex 1 0] /\
  evaluate_on_grid evaluated_ctf 0%nat = (evaluated_ctf, Ok [Complex 1 0]).
Proof.
  apply (evaluate_on_grid_idempotent example_ctf 0%nat evaluated_ctf [Complex 1 0]).
  - simpl. lia.
  - exact example_first_evaluation.
Defined.

Lemma changed_ctf_phase_error (f : R) :
  polar_chi_at (item (<["C10" := 1]> initial_parameters)) (2 * PI / 2) 1 f = PI / 2.
Proof.
  unfold polar_chi_at, order1, order2, order3, order4, order5, DTYPE.
  set (p := item (<["C10" := 1]> initial_parameters)).
  assert (p "C10" = 1) as -> by reflexivity.
  assert (p "C12" = 0) as -> by reflexivity.
  assert (p "C21" = 0) as -> by reflexivity.
  assert (p "C23" = 0) as -> by reflexivity.
  assert (p "C30" = 0) as -> by reflexivity.
  assert (p "C32" = 0) as -> by reflexivity.
  assert (p "C34" = 0) as -> by reflexivity.
  assert (p "C41" = 0) as -> by reflexivity.
  assert (p "C43" = 0) as -> by reflexivity.
  assert (p "C45" = 0) as -> by reflexivity.
  assert (p "C50" = 0) as -> by reflexivity.
  assert (p "C52" = 0) as -> by reflexivity.
  assert (p "C54" = 0) as -> by reflexivity.
  assert (p "C56" = 0) as -> by reflexivity.
  simpl. field.
Qed.

(** C1, where the code departs from it.  Grid 0 is evaluated with every
    coefficient at zero; [set_parameters] then sets C10 to 1, which the
    store shows; the next evaluation on grid 0 still returns the array
    computed for C10 = 0, although the method body would now return a
    different one: the cache was not cleared. *)
Theorem set_parameters_leaves_cache_stale :
  evaluate_on_grid example_ctf 0%nat = (evaluated_ctf, Ok [Complex 1 0]) /\
  set_parameters evaluated_ctf [("C10", 1)] = (changed_ctf, Ok [("C10", 1)]) /\
  _parameters changed_ctf !! "C10" = Some 1 /\
  evaluate_on_grid changed_ctf 0%nat = (changed_ctf, Ok [Complex 1 0]) /\
  evaluate_on_grid_body changed_ctf 0%nat = Ok [Complex 0 (-1)].
Proof.
  split_and!.
  - exact example_first_evaluation.
  - rewrite set_parameters_recognized.
    + reflexivity.
    + exact initial_parameters_well_formed.
    + repeat constructor. by exists "C10".
  - reflexivity.
  - by apply evaluate_on_grid_hit.
  - unfold evaluate_on_grid_body, wavelength.
    cbn [check_is_defined spatial_frequencies example_grid changed_ctf evaluated_ctf
         example_ctf with_parameters with_cache _accelerator accelerator_wavelength
         mbind result_bind map outer list_bind].
    rewrite (evaluate_default_settings _ _ _ 2); [|by repeat split|done].
    unfold calculate_polar_aberrations. cbn [_parameters].
    rewrite calculate_polar_chi_elements;
      [ | apply well_formed_full, well_formed_insert;
          [exact initial_parameters_well_formed | symbols_known]
        | done ].
    unfold divide. destruct (decide (2 = 0)) as [|_]; [lra|].
    cbv beta iota delta [mbind result_bind mret result_ret].
    replace (sqrt ((1 / 2 * 2) ^ 2 + (0 * 2) ^ 2)) with 1
      by (replace ((1 / 2 * 2) ^ 2 + (0 * 2) ^ 2) with 1 by field; by rewrite sqrt_1).
    cbn [zip_with app map complex_exponential].
    rewrite changed_ctf_phase_error.
    by rewrite cos_neg, sin_neg, cos_PI2, sin_PI2.
Qed.

(** * Further properties of the code *)

(** ** The aberration functions *)

Lemma complex_exponential_unit (x : list R) : Forall unit_modulus (complex_exponential x).
Proof.
  unfold complex_exponential. apply Forall_forall. intros z Hz.
  apply list_elem_of_fmap in Hz as (t & -> & _). unfold unit_modulus. simpl.
  pose proof (sin2_cos2 t) as H. unfold Rsqr in H. lra.
Qed.

Lemma length_complex_exponential (x : list R) :
  length (complex_exponential x) = length x.
Proof. unfold complex_exponential. by rewrite length_map. Qed.

(** The array of aberrations, for a full mapping, a nonzero wavelength and
    arrays of one shape. *)
Lemma calculate_polar_aberrations_elements alpha phi wavelength parameters :
  full parameters -> length alpha = length phi -> wavelength <> 0 ->
  calculate_polar_aberrations alpha phi wavelength parameters =
    Ok (complex_exponential
          (map Ropp (zip_with (polar_chi_at (item parameters) (2 * PI / wavelength))
                       alpha phi))).
Proof.
  intros Hfull Hlen Hw. unfold calculate_polar_aberrations.
  rewrite calculate_polar_chi_elements by done.
  unfold divide. by destruct (decide (wavelength = 0)).
Qed.

(** X1.  For a full mapping, a nonzero wavelength and [alpha], [phi] of one
    shape, [calculate_polar_aberrations] returns an array of the shape of
    [alpha] whose elements all have modulus 1: the aberrations change the
    phase only. *)
Theorem polar_aberrations_unit_modulus alpha phi wavelength parameters :
  full parameters -> length alpha = length phi -> wavelength <> 0 ->
  exists out,
    calculate_polar_aberrations alpha phi wavelength parameters = Ok out /\
    length out = length alpha /\
    Forall unit_modulus out.
Proof.
  intros Hfull Hlen Hw.
  rewrite calculate_polar_aberrations_elements by done.
  eexists. split_and!; [reflexivity| |apply complex_exponential_unit].
  rewrite length_complex_exponential, length_map, length_zip_with. lia.
Qed.

Lemma polar_aberrations_unit_modulus_witness :
  exists out,
    calculate_polar_aberrations [1; 2] [0; PI] 2 (<["C12" := 1]> initial_parameters)
      = Ok out /\
    length out = 2%nat /\
    Forall unit_modulus out.
Proof.
  apply (polar_aberrations_unit_modulus [1; 2] [0; PI] 2 (<["C12" := 1]> initial_parameters)).
  - apply well_formed_full, well_formed_insert;
      [exact initial_parameters_well_formed | symbols_known].
  - reflexivity.
  - lra.
Defined.

(** X2.  [calculate_symmetric_chi] depends on [alpha] through its square
    only: negating every angle gives the same outcome, array or
    exception. *)
Theorem symmetric_chi_even alpha wavelength parameters :
  calculate_symmetric_chi (map Ropp alpha) wavelength parameters =
    calculate_symmetric_chi alpha wavelength parameters.
Proof.
  unfold calculate_symmetric_chi.
  destruct (divide (2 * PI) wavelength) as [k|e]; [|done].
  cbv beta iota delta [mbind result_bind].
  destruct (require parameters ["C10"; "C30"; "C50"]) as [[]|e]; [|done].
  cbv beta iota delta [mret result_ret]. f_equal.
  rewrite map_map. apply map_ext. intros a. cbv zeta.
  replace ((- a) ^ 2) with (a ^ 2) by ring. reflexivity.
Qed.

(** X3.  The two expansions fail in different orders.  With the key C10
    absent and a wavelength of zero, [calculate_symmetric_chi] raises
    [ZeroDivisionError] (it divides first) while [calculate_polar_chi]
    raises [KeyError('C10')] (it reads the mapping first, and does so at
    every wavelength). *)
Theorem chi_error_precedence alpha phi wavelength parameters :
  parameters !! "C10" = None ->
  calculate_symmetric_chi alpha 0 parameters = Raise ZeroDivisionError /\
  calculate_polar_chi alpha phi wavelength parameters = Raise (KeyError "C10").
Proof.
  intros Hmissing. split.
  - unfold calculate_symmetric_chi, divide. by destruct (decide (0 = 0)).
  - unfold calculate_polar_chi, order_group, any_nonzero.
    cbn [require]. by rewrite Hmissing.
Qed.

Lemma chi_error_precedence_witness :
  calculate_symmetric_chi [1] 0 ∅ = Raise ZeroDivisionError /\
  calculate_polar_chi [1] [0] 0 ∅ = Raise (KeyError "C10").
Proof.
  apply (chi_error_precedence [1] [0] 0 ∅). reflexivity.
Defined.

Lemma cos_plus_2PI (t : R) : cos (t + 2 * PI) = cos t.
Proof. rewrite cos_plus, cos_2PI, sin_2PI. ring. Qed.

(** One element of the expansion at the reflected point. *)
Lemma polar_chi_at_reflected p k a f :
  polar_chi_at p k (- a) (f + PI) = polar_chi_at p k a f.
Proof.
  unfold polar_chi_at, order1, order2, order3, order4, order5. cbv zeta.
  replace (2 * (f + PI - p "phi12")) with (2 * (f - p "phi12") + 2 * PI) by ring.
  replace (f + PI - p "phi21") with (f - p "phi21" + PI) by ring.
  replace (3 * (f + PI - p "phi23")) with (3 * (f - p "phi23") + 2 * PI + PI) by ring.
  replace (2 * (f + PI - p "phi32")) with (2 * (f - p "phi32") + 2 * PI) by ring.
  replace (4 * (f + PI - p "phi34"))
    with (4 * (f - p "phi34") + 2 * PI + 2 * PI) by ring.
  replace (f + PI - p "phi41") with (f - p "phi41" + PI) by ring.
  replace (3 * (f + PI - p "phi43")) with (3 * (f - p "phi43") + 2 * PI + PI) by ring.
  replace (5 * (f + PI - p "phi45"))
    with (5 * (f - p "phi45") + 2 * PI + 2 * PI + PI) by ring.
  replace (2 * (f + PI - p "phi52")) with (2 * (f - p "phi52") + 2 * PI) by ring.
  replace (4 * (f + PI - p "phi54"))
    with (4 * (f - p "phi54") + 2 * PI + 2 * PI) by ring.
  replace (6 * (f + PI - p "phi56"))
    with (6 * (f - p "phi56") + 2 * PI + 2 * PI + 2 * PI) by ring.
  rewrite !neg_cos, !cos_plus_2PI. ring.
Qed.

(** X4.  The phase error is a function of the point, not of the polar
    coordinates chosen for it: for a full mapping and arrays of one shape,
    negating every [alpha] while turning every [phi] by half a turn gives
    the same outcome of [calculate_polar_chi]. *)
Theorem polar_chi_reflected alpha phi wavelength parameters :
  full parameters -> length alpha = length phi ->
  calculate_polar_chi (map Ropp alpha) (map (fun f => f + PI) phi) wavelength parameters =
    calculate_polar_chi alpha phi wavelength parameters.
Proof.
  intros Hfull Hlen.
  rewrite !calculate_polar_chi_elements by (by rewrite ?length_map).
  destruct (divide (2 * PI) wavelength) as [k|e]; [|done].
  cbv beta iota delta [mbind result_bind mret result_ret]. f_equal.
  clear Hfull. revert phi Hlen.
  induction alpha as [|a alpha IH]; intros [|f phi]; simpl; try done.
  intros [= Hlen]. by rewrite polar_chi_at_reflected, IH.
Qed.

Lemma polar_chi_reflected_witness :
  calculate_polar_chi (map Ropp [1; 2]) (map (fun f => f + PI) [0; PI]) 2
    (<["C21" := 1]> initial_parameters) =
  calculate_polar_chi [1; 2] [0; PI] 2 (<["C21" := 1]> initial_parameters).
Proof.
  apply (polar_chi_reflected [1; 2] [0; PI] 2 (<["C21" := 1]> initial_parameters)).
  - apply well_formed_full, well_formed_insert;
      [exact initial_parameters_well_formed | symbols_known].
  - reflexivity.
Defined.

(** ** The envelopes *)

Lemma exp_nonpositive (x : R) : x <= 0 -> damping (exp x).
Proof.
  intros Hx. split; [apply exp_pos|].
  rewrite <- exp_0. destruct Hx as [Hx | ->]; [|lra].
  left. by apply exp_increasing.
Qed.

(** X5.  For a nonzero wavelength [calculate_temporal_envelope] returns
    an array of the shape of [alpha] with every element in (0, 1], whatever
    the focal spread; the spread enters through its square only, so its
    sign makes no difference. *)
Theorem temporal_envelope_damps alpha wavelength focal_spread :
  wavelength <> 0 ->
  exists out,
    calculate_temporal_envelope alpha wavelength focal_spread = Ok out /\
    length out = length alpha /\
    Forall damping out /\
    calculate_temporal_envelope alpha wavelength (- focal_spread) = Ok out.
Proof.
  intros Hw. unfold calculate_temporal_envelope, divide.
  destruct (decide (wavelength = 0)) as [|_]; [done|].
  cbv beta iota delta [mbind result_bind mret result_ret].
  eexists. split_and!; [reflexivity| | |].
  - by rewrite length_map.
  - apply Forall_forall. intros x Hx.
    apply list_elem_of_fmap in Hx as (a & -> & _). unfold DTYPE.
    apply exp_nonpositive. nra.
  - f_equal. apply map_ext. intros a. do 3 f_equal. ring.
Qed.

Lemma temporal_envelope_damps_witness :
  exists out,
    calculate_temporal_envelope [0; 1] 2 3 = Ok out /\
    length out = 2%nat /\
    Forall damping out /\
    calculate_temporal_envelope [0; 1] 2 (- 3) = Ok out.
Proof. apply (temporal_envelope_damps [0; 1] 2 3). lra. Defined.

(** X6.  For a nonzero wavelength [calculate_gaussian_envelope] returns
    an array of the shape of [alpha] with every element in (0, 1], equal
    to 1 wherever [alpha] is zero, whatever the spread, whose sign makes
    no difference. *)
Theorem gaussian_envelope_damps alpha wavelength gaussian_spread :
  wavelength <> 0 ->
  length (calculate_gaussian_envelope alpha wavelength gaussian_spread) = length alpha /\
  Forall2 (fun a x => damping x /\ (a = 0 -> x = 1))
    alpha (calculate_gaussian_envelope alpha wavelength gaussian_spread) /\
  calculate_gaussian_envelope alpha wavelength (- gaussian_spread) =
    calculate_gaussian_envelope alpha wavelength gaussian_spread.
Proof.
  intros Hw. unfold calculate_gaussian_envelope. split_and!.
  - by rewrite length_map.
  - induction alpha as [|a alpha IH]; cbn [map]; constructor; [|exact IH].
    unfold DTYPE. split.
    + apply exp_nonpositive.
      assert (0 < wavelength ^ 2) as Hpos by nra.
      replace (- 0.5 * gaussian_spread ^ 2 * a ^ 2 / wavelength ^ 2)
        with (- (0.5 * gaussian_spread ^ 2 * a ^ 2 * / wavelength ^ 2)) by lra.
      pose proof (Rinv_0_lt_compat _ Hpos) as Hinv.
      assert (0 <= 0.5 * gaussian_spread ^ 2 * a ^ 2 * / wavelength ^ 2) as Hnum.
      { pose proof (pow2_ge_0 gaussian_spread). pose proof (pow2_ge_0 a).
        apply Rmult_le_pos; [|lra]. apply Rmult_le_pos; [|done].
        apply Rmult_le_pos; [lra|done]. }
      lra.
    + intros ->. replace (- 0.5 * gaussian_spread ^ 2 * 0 ^ 2 / wavelength ^ 2) with 0
        by (unfold Rdiv; ring). apply exp_0.
  - apply map_ext. intros a. do 2 f_equal.
    replace ((- gaussian_spread) ^ 2) with (gaussian_spread ^ 2) by ring. reflexivity.
Qed.

Lemma gaussian_envelope_damps_witness :
  length (calculate_gaussian_envelope [0; 1] 2 3) = 2%nat /\
  Forall2 (fun a x => damping x /\ (a = 0 -> x = 1))
    [0; 1] (calculate_gaussian_envelope [0; 1] 2 3) /\
  calculate_gaussian_envelope [0; 1] 2 (- 3) = calculate_gaussian_envelope [0; 1] 2 3.
Proof. apply (gaussian_envelope_damps [0; 1] 2 3). lra. Defined.

Lemma sign_nonnegative (s : R) : 0 <= s -> 0 <= sign s.
Proof.
  intros Hs. unfold sign.
  destruct (decide (s < 0)); [lra|]. destruct (decide (s = 0)); lra.
Qed.

Lemma spatial_envelope_at_damps p k s a f : 0 <= s -> damping (spatial_envelope_at p k s a f).
Proof.
  intros Hs. unfold spatial_envelope_at. apply exp_nonpositive.
  pose proof (sign_nonnegative s Hs) as Hsign.
  set (g := radial_gradient p k a f ^ 2 + azimuthal_gradient p k a f ^ 2).
  assert (0 <= g) as Hg by (unfold g; nra).
  assert (0 <= sign s * (s / 2) ^ 2) as Hc by nra.
  nra.
Qed.



(** ** The aperture, soft edge included *)

Lemma calculate_aperture_elements alpha cutoff rolloff :
  calculate_aperture alpha cutoff rolloff = map (aperture_at cutoff rolloff) alpha.
Proof.
  unfold calculate_aperture, aperture_at.
  destruct (decide (0 < rolloff)) as [Hroll|Hroll]; [|done].
  destruct cutoff as [c|]; [|done].
  induction alpha as [|a alpha IH]; [done|].
  cbn [map zip_with]. cbv zeta in IH. rewrite IH.
  unfold DTYPE. by destruct (decide (c - rolloff * c < a)).
Qed.

Lemma aperture_at_range cutoff rolloff a : 0 <= aperture_at cutoff rolloff a <= 1.
Proof.
  unfold aperture_at.
  destruct (decide (0 < rolloff)); [destruct cutoff as [c|]|].
  - cbv zeta. destruct (decide (c - rolloff * c < a)); [|lra].
    destruct (decide (c < a)); [lra|].
    pose proof (COS_bound (PI * (a - c + rolloff * c) / (rolloff * c))). lra.
  - lra.
  - destruct (decide (xlt a cutoff)); lra.
Qed.

Lemma aperture_at_monotone cutoff rolloff a b :
  a <= b -> aperture_at cutoff rolloff b <= aperture_at cutoff rolloff a.
Proof.
  intros Hab.
  pose proof (aperture_at_range cutoff rolloff a) as Ha.
  pose proof (aperture_at_range cutoff rolloff b) as Hb.
  unfold aperture_at in *.
  destruct (decide (0 < rolloff)) as [Hroll|Hroll]; [destruct cutoff as [c|]|].
  - cbv zeta in *.
    destruct (decide (c - rolloff * c < b)) as [Hb1|Hb1];
      destruct (decide (c - rolloff * c < a)) as [Ha1|Ha1]; try lra.
    destruct (decide (c < b)) as [Hb2|Hb2]; destruct (decide (c < a)) as [Ha2|Ha2];
      try lra.
    assert (0 < rolloff * c) as Hw by lra.
    assert (0 < c) as Hc by nra.
    assert (cos (PI * (b - c + rolloff * c) / (rolloff * c)) <=
            cos (PI * (a - c + rolloff * c) / (rolloff * c))); [|lra].
    pose proof PI_RGT_0 as Hpi.
    set (ta := (a - c + rolloff * c) / (rolloff * c)).
    set (tb := (b - c + rolloff * c) / (rolloff * c)).
    assert (0 <= ta) as Hta0.
    { unfold ta. apply Rmult_le_pos; [lra|]. left. by apply Rinv_0_lt_compat. }
    assert (ta <= tb) as Htab.
    { unfold ta, tb. apply Rmult_le_compat_r; [|lra]. left. by apply Rinv_0_lt_compat. }
    assert (tb <= 1) as Htb1.
    { unfold tb. apply Rmult_le_reg_r with (rolloff * c); [done|].
      replace ((b - c + rolloff * c) / (rolloff * c) * (rolloff * c))
        with (b - c + rolloff * c) by (field; repeat split; lra). lra. }
    replace (PI * (a - c + rolloff * c) / (rolloff * c)) with (PI * ta)
      by (unfold ta; field; repeat split; lra).
    replace (PI * (b - c + rolloff * c) / (rolloff * c)) with (PI * tb)
      by (unfold tb; field; repeat split; lra).
    apply cos_decr_1; nra.
  - lra.
  - destruct (decide (xlt b cutoff)) as [Hb1|Hb1];
      destruct (decide (xlt a cutoff)) as [Ha1|Ha1]; try lra.
    destruct cutoff as [c|]; simpl in *; [lra|done].
Qed.

(** X8.  Whatever the cutoff and the rolloff, hard or soft edge,
    [calculate_aperture] returns an array of the shape of [alpha] whose
    elements all lie in [0, 1]. *)
Theorem aperture_range alpha cutoff rolloff :
  length (calculate_aperture alpha cutoff rolloff) = length alpha /\
  Forall (fun x => 0 <= x <= 1) (calculate_aperture alpha cutoff rolloff).
Proof.
  rewrite calculate_aperture_elements. split; [by rewrite length_map|].
  apply Forall_forall. intros x Hx.
  apply list_elem_of_fmap in Hx as (a & -> & _). apply aperture_at_range.
Qed.

(** X9.  The aperture never opens again further out: of two elements of
    [alpha], the larger angle gets the smaller (or the same) value, for
    every cutoff and rolloff. *)
Theorem aperture_monotone alpha cutoff rolloff i j a b x y :
  alpha !! i = Some a -> alpha !! j = Some b ->
  calculate_aperture alpha cutoff rolloff !! i = Some x ->
  calculate_aperture alpha cutoff rolloff !! j = Some y ->
  a <= b -> y <= x.
Proof.
  rewrite calculate_aperture_elements, !list_lookup_fmap.
  intros -> -> [= <-] [= <-]. apply aperture_at_monotone.
Qed.

Lemma aperture_monotone_witness :
  exists x y,
    calculate_aperture [1; 2] (Finite 3) 0.5 !! 0%nat = Some x /\
    calculate_aperture [1; 2] (Finite 3) 0.5 !! 1%nat = Some y /\
    y <= x.
Proof.
  exists (aperture_at (Finite 3) 0.5 1), (aperture_at (Finite 3) 0.5 2).
  assert (calculate_aperture [1; 2] (Finite 3) 0.5 !! 0%nat =
          Some (aperture_at (Finite 3) 0.5 1)) as H0
    by (by rewrite calculate_aperture_elements).
  assert (calculate_aperture [1; 2] (Finite 3) 0.5 !! 1%nat =
          Some (aperture_at (Finite 3) 0.5 2)) as H1
    by (by rewrite calculate_aperture_elements).
  split_and!; [exact H0|exact H1|].
  apply (aperture_monotone [1; 2] (Finite 3) 0.5 0 1 1 2);
    [reflexivity|reflexivity|exact H0|exact H1|lra].
Defined.

(** X10.  With a positive rolloff and a positive cutoff the aperture is 1
    up to [cutoff - rolloff * cutoff] and 0 from the cutoff on, the cutoff
    itself included: the taper ends at 0. *)
Theorem aperture_soft_edge alpha cutoff rolloff :
  0 < rolloff -> 0 < cutoff ->
  Forall2 (fun a x => (a <= cutoff - rolloff * cutoff -> x = 1) /\ (cutoff <= a -> x = 0))
    alpha (calculate_aperture alpha (Finite cutoff) rolloff).
Proof.
  intros Hroll Hcut. rewrite calculate_aperture_elements.
  apply Forall2_fmap_r, Forall_Forall2_diag, Forall_forall. intros a _.
  unfold aperture_at. destruct (decide (0 < rolloff)) as [_|]; [|done].
  cbv beta zeta delta [compose].
  assert (0 < rolloff * cutoff) as Hw by nra.
  destruct (decide (cutoff - rolloff * cutoff < a)) as [Hin|Hin];
    [|apply Rnot_lt_le in Hin; split; intros; lra].
  split; [lra|]. intros Hge.
  destruct (decide (cutoff < a)) as [|Hle]; [done|].
  assert (a = cutoff) as -> by lra.
  replace (PI * (cutoff - cutoff + rolloff * cutoff) / (rolloff * cutoff)) with PI
    by (field; repeat split; lra).
  rewrite cos_PI. lra.
Qed.

Lemma aperture_soft_edge_witness :
  Forall2 (fun a x => (a <= 3 - 0.5 * 3 -> x = 1) /\ (3 <= a -> x = 0))
    [1; 2; 3; 4] (calculate_aperture [1; 2; 3; 4] (Finite 3) 0.5).
Proof. apply (aperture_soft_edge [1; 2; 3; 4] 3 0.5); lra. Defined.

(** ** The composed transfer function *)

Lemma calculate_temporal_envelope_elements alpha w focal_spread :
  w <> 0 ->
  calculate_temporal_envelope alpha w focal_spread = Ok (map (temporal_at w focal_spread) alpha).
Proof.
  intros Hw. unfold calculate_temporal_envelope, divide.
  by destruct (decide (w = 0)).
Qed.

Lemma calculate_gaussian_envelope_elements alpha w gaussian_spread :
  calculate_gaussian_envelope alpha w gaussian_spread =
    map (gaussian_at w gaussian_spread) alpha.
Proof. reflexivity. Qed.

(** [evaluate] as one product: the aberrations times the applied factors. *)
Lemma evaluate_product {Grid : Type} (self : @CTF Grid) alpha phi w :
  full (_parameters self) ->
  accelerator_wavelength (_accelerator self) = Some w -> w <> 0 ->
  length alpha = length phi ->
  evaluate self alpha phi =
    Ok (foldl multiply
          (complex_exponential
             (map Ropp (zip_with (polar_chi_at (item (_parameters self)) (2 * PI / w))
                          alpha phi)))
          (applied_factors self w alpha phi)).
Proof.
  intros Hfull Hw Hnz Hlen.
  unfold evaluate, evaluate_aberrations, evaluate_temporal_envelope,
    evaluate_spatial_envelope, evaluate_gaussian_envelope, evaluate_aperture,
    wavelength, applied_factors.
  rewrite Hw. cbv beta iota delta [mbind result_bind].
  rewrite calculate_polar_aberrations_elements by done.
  rewrite calculate_temporal_envelope_elements by done.
  rewrite calculate_gaussian_envelope_elements.
  rewrite calculate_spatial_envelope_elements by done.
  unfold divide. destruct (decide (w = 0)) as [|_]; [done|].
  cbv beta iota delta [mbind result_bind mret result_ret].
  destruct (below_inf (_semiangle_cutoff self)), (decide (0 < _focal_spread self)),
    (decide (0 < _angular_spread self)), (decide (0 < _gaussian_spread self));
    reflexivity.
Qed.

Lemma damping_range (x : R) : damping x -> 0 <= x <= 1.
Proof. unfold damping. lra. Qed.

Lemma scale_bounded (z : complex) (x : R) :
  modulus_at_most_1 z -> 0 <= x <= 1 -> modulus_at_most_1 (scale z x).
Proof.
  unfold modulus_at_most_1, scale. simpl. intros Hz Hx.
  replace ((re z * x) ^ 2 + (im z * x) ^ 2) with (x ^ 2 * (re z ^ 2 + im z ^ 2)) by ring.
  assert (0 <= x ^ 2 <= 1) by nra. assert (0 <= re z ^ 2 + im z ^ 2) by nra. nra.
Qed.

Lemma multiply_bounded (array : list complex) (factor : list R) :
  length factor = length array ->
  Forall modulus_at_most_1 array -> Forall (fun x => 0 <= x <= 1) factor ->
  length (multiply array factor) = length array /\
  Forall modulus_at_most_1 (multiply array factor).
Proof.
  intros Hlen Harray Hfactor. unfold multiply. split.
  - rewrite length_zip_with. lia.
  - clear Hlen. revert factor Hfactor.
    induction Harray as [|z array Hz _ IH]; intros [|x factor] Hfactor; simpl;
      try constructor.
    + apply scale_bounded; [done|]. by apply Forall_inv in Hfactor.
    + apply IH. by apply Forall_inv_tail in Hfactor.
Qed.

Lemma foldl_multiply_bounded (factors : list (list R)) (array : list complex) :
  Forall modulus_at_most_1 array ->
  Forall (fun factor => length factor = length array /\
                        Forall (fun x => 0 <= x <= 1) factor) factors ->
  length (foldl multiply array factors) = length array /\
  Forall modulus_at_most_1 (foldl multiply array factors).
Proof.
  intros Harray Hfactors. revert array Harray Hfactors.
  induction factors as [|factor factors IH]; intros array Harray Hfactors; simpl; [done|].
  apply Forall_cons in Hfactors as [[Hlen Hrange] Hrest].
  destruct (multiply_bounded array factor Hlen Harray Hrange) as [Hlen' Hbounded].
  destruct (IH (multiply array factor) Hbounded) as [Hl Hb].
  - eapply Forall_impl; [exact Hrest|]. intros f [Hf1 Hf2]. split; [congruence|done].
  - split; [congruence|done].
Qed.

Lemma temporal_at_damping w focal_spread a : damping (temporal_at w focal_spread a).
Proof.
  unfold temporal_at, DTYPE. apply exp_nonpositive.
  pose proof (pow2_ge_0 (0.5 * PI / w * focal_spread * a ^ 2)). lra.
Qed.

Lemma gaussian_at_damping w gaussian_spread a :
  w <> 0 -> damping (gaussian_at w gaussian_spread a).
Proof.
  intros Hw. unfold gaussian_at, DTYPE. apply exp_nonpositive.
  assert (0 < w ^ 2) as Hpos by nra.
  pose proof (Rinv_0_lt_compat _ Hpos) as Hinv.
  pose proof (pow2_ge_0 gaussian_spread). pose proof (pow2_ge_0 a).
  assert (0 <= 0.5 * gaussian_spread ^ 2 * a ^ 2 * / w ^ 2) as Hnum.
  { apply Rmult_le_pos; [|lra]. apply Rmult_le_pos; [|done].
    apply Rmult_le_pos; [lra|done]. }
  replace (- 0.5 * gaussian_spread ^ 2 * a ^ 2 / w ^ 2)
    with (- (0.5 * gaussian_spread ^ 2 * a ^ 2 * / w ^ 2)) by lra.
  lra.
Qed.

(** Every applied factor has the shape of [alpha] and values in [0, 1]. *)
Lemma applied_factors_range {Grid : Type} (self : @CTF Grid) w alpha phi :
  w <> 0 -> length alpha = length phi ->
  Forall (fun factor => length factor = length alpha /\
                        Forall (fun x => 0 <= x <= 1) factor)
    (applied_factors self w alpha phi).
Proof.
  intros Hw Hlen. unfold applied_factors. repeat apply Forall_app_2.
  - destruct (below_inf (_semiangle_cutoff self)); [|constructor].
    repeat constructor.
    + by rewrite calculate_aperture_elements, length_map.
    + rewrite calculate_aperture_elements. apply Forall_forall. intros x Hx.
      apply list_elem_of_fmap in Hx as (a & -> & _). apply aperture_at_range.
  - destruct (decide (0 < _focal_spread self)); [|constructor].
    repeat constructor; [by rewrite length_map|].
    apply Forall_forall. intros x Hx.
    apply list_elem_of_fmap in Hx as (a & -> & _).
    apply damping_range, temporal_at_damping.
  - destruct (decide (0 < _angular_spread self)) as [Hs|]; [|constructor].
    repeat constructor; [rewrite length_zip_with; lia|].
    clear Hlen. revert phi.
    induction alpha as [|a alpha IH]; intros [|f phi]; simpl; constructor.
    + apply damping_range, spatial_envelope_at_damps. lra.
    + apply IH.
  - destruct (decide (0 < _gaussian_spread self)); [|constructor].
    repeat constructor; [by rewrite length_map|].
    apply Forall_forall. intros x Hx.
    apply list_elem_of_fmap in Hx as (a & -> & _).
    by apply damping_range, gaussian_at_damping.
Qed.

Lemma unit_modulus_bounded (z : complex) : unit_modulus z -> modulus_at_most_1 z.
Proof. unfold unit_modulus, modulus_at_most_1. lra. Qed.

(** The product [evaluate] returns has the shape of [alpha] and stays
    within the unit disc. *)
Lemma product_bounded {Grid : Type} (self : @CTF Grid) w alpha phi :
  w <> 0 -> length alpha = length phi ->
  let out :=
    foldl multiply
      (complex_exponential
         (map Ropp (zip_with (polar_chi_at (item (_parameters self)) (2 * PI / w))
                      alpha phi)))
      (applied_factors self w alpha phi) in
  length out = length alpha /\ Forall modulus_at_most_1 out.
Proof.
  intros Hnz Hlen. cbv zeta.
  set (aberrations := complex_exponential _).
  assert (length aberrations = length alpha) as Hlength.
  { unfold aberrations.
    rewrite length_complex_exponential, length_map, length_zip_with. lia. }
  destruct (foldl_multiply_bounded (applied_factors self w alpha phi) aberrations)
    as [Hl Hb].
  - eapply Forall_impl; [apply complex_exponential_unit|]. apply unit_modulus_bounded.
  - rewrite Hlength. by apply applied_factors_range.
  - split; [congruence|done].
Qed.

Section Composed.

Context {Grid : Type}.
Implicit Types (self : @CTF Grid).

(** X11.  The transfer function never amplifies.  For a full store, a
    nonzero wavelength and [alpha], [phi] of one shape, [evaluate] returns
    an array of the shape of [alpha] whose elements all have modulus at
    most 1, for every cutoff, rolloff and spread, a negative angular
    spread included: the envelope that would amplify is applied for
    positive spreads only. *)
Theorem evaluate_never_amplifies self alpha phi w :
  full (_parameters self) ->
  accelerator_wavelength (_accelerator self) = Some w -> w <> 0 ->
  length alpha = length phi ->
  exists out,
    evaluate self alpha phi = Ok out /\
    length out = length alpha /\
    Forall modulus_at_most_1 out.
Proof.
  intros Hfull Hw Hnz Hlen.
  rewrite (evaluate_product self alpha phi w) by done.
  eexists. split; [reflexivity|]. by apply product_bounded.
Qed.

End Composed.

Lemma evaluate_never_amplifies_witness :
  exists out,
    evaluate amplifying_ctf [1; 2; 4] [0; 1; PI] = Ok out /\
    length out = 3%nat /\
    Forall modulus_at_most_1 out.
Proof.
  apply (evaluate_never_amplifies amplifying_ctf [1; 2; 4] [0; 1; PI] 2).
  - apply well_formed_full, well_formed_insert;
      [exact initial_parameters_well_formed | symbols_known].
  - reflexivity.
  - lra.
  - reflexivity.
Defined.

Lemma aperture_at_beyond (c rolloff a : R) :
  0 <= c -> c < a -> aperture_at (Finite c) rolloff a = 0.
Proof.
  intros Hc Ha. unfold aperture_at.
  destruct (decide (0 < rolloff)) as [Hroll|_].
  - cbv zeta. assert (0 <= rolloff * c) by nra.
    destruct (decide (c - rolloff * c < a)); [|lra]. by destruct (decide (c < a)).
  - destruct (decide (xlt a (Finite c))) as [Hlt|_]; [simpl in Hlt; lra|done].
Qed.

Lemma scale_zero_r (z : complex) : scale z 0 = Complex 0 0.
Proof. unfold scale. f_equal; ring. Qed.

Lemma scale_zero_l (x : R) : scale (Complex 0 0) x = Complex 0 0.
Proof. unfold scale. simpl. f_equal; ring. Qed.

Lemma foldl_multiply_zero (factors : list (list R)) (array : list complex) (i : nat) :
  array !! i = Some (Complex 0 0) ->
  Forall (fun factor => is_Some (factor !! i)) factors ->
  foldl multiply array factors !! i = Some (Complex 0 0).
Proof.
  intros Hzero Hfactors. revert array Hzero.
  induction Hfactors as [|factor factors [x Hx] _ IH]; intros array Hzero; simpl; [done|].
  apply IH. unfold multiply. rewrite lookup_zip_with, Hzero, Hx. simpl.
  by rewrite scale_zero_l.
Qed.

Section Blocked.

Context {Grid : Type}.
Implicit Types (self : @CTF Grid).

(** X12.  Nothing passes beyond the aperture.  With a finite cutoff that
    is not negative, [evaluate] returns exactly 0 at every element whose
    angle exceeds the cutoff, whatever the coefficients, the rolloff and
    the spreads (full store, nonzero wavelength, [alpha] and [phi] of one
    shape). *)
Theorem evaluate_zero_beyond_cutoff self alpha phi w c i a :
  full (_parameters self) ->
  accelerator_wavelength (_accelerator self) = Some w -> w <> 0 ->
  length alpha = length phi ->
  _semiangle_cutoff self = Finite c -> 0 <= c ->
  alpha !! i = Some a -> c < a ->
  exists out, evaluate self alpha phi = Ok out /\ out !! i = Some (Complex 0 0).
Proof.
  intros Hfull Hw Hnz Hlen Hcut Hc Hi Ha.
  rewrite (evaluate_product self alpha phi w) by done.
  eexists. split; [reflexivity|].
  pose proof (applied_factors_range self w alpha phi Hnz Hlen) as Hrange.
  assert (i < length alpha)%nat as Hlt by (by eapply lookup_lt_Some).
  unfold applied_factors in *. rewrite Hcut in *. cbn [below_inf app] in *.
  apply Forall_cons in Hrange as [_ Hrange].
  cbn [foldl]. apply foldl_multiply_zero.
  - unfold multiply. rewrite lookup_zip_with.
    rewrite calculate_aperture_elements, list_lookup_fmap, Hi. cbn [fmap option_fmap option_map].
    rewrite aperture_at_beyond by done.
    destruct (complex_exponential _ !! i) as [z|] eqn:Hz.
    + simpl. by rewrite scale_zero_r.
    + apply lookup_ge_None in Hz.
      rewrite length_complex_exponential, length_map, length_zip_with in Hz. lia.
  - eapply Forall_impl; [exact Hrange|]. intros factor [Hf _].
    apply lookup_lt_is_Some. lia.
Qed.

End Blocked.

Lemma evaluate_zero_beyond_cutoff_witness :
  exists out,
    evaluate amplifying_ctf [1; 2; 4] [0; 1; PI] = Ok out /\
    out !! 2%nat = Some (Complex 0 0).
Proof.
  apply (evaluate_zero_beyond_cutoff amplifying_ctf [1; 2; 4] [0; 1; PI] 2 3 2 4).
  - apply well_formed_full, well_formed_insert;
      [exact initial_parameters_well_formed | symbols_known].
  - reflexivity.
  - lra.
  - reflexivity.
  - reflexivity.
  - lra.
  - reflexivity.
  - lra.
Defined.

(** ** Evaluation on a grid *)

Lemma length_outer (f : R -> R -> R) (xs ys : list R) :
  length (outer f xs ys) = (length xs * length ys)%nat.
Proof.
  unfold outer. induction xs as [|x xs IH]; [done|].
  cbn [mbind list_bind]. rewrite length_app, length_map, IH. cbn [length]. lia.
Qed.

Lemma outer_zip_with (g f1 f2 h : R -> R -> R) (xs ys : list R) :
  (forall x y, g (f1 x y) (f2 x y) = h x y) ->
  zip_with g (outer f1 xs ys) (outer f2 xs ys) = outer h xs ys.
Proof.
  intros Hpoint. unfold outer. induction xs as [|x xs IH]; [done|].
  cbn [mbind list_bind]. rewrite zip_with_app by (by rewrite !length_map).
  rewrite IH. f_equal.
  clear IH. induction ys as [|y ys IHy]; [done|]. simpl. by rewrite Hpoint, IHy.
Qed.

Section OnGrid.

Context {Grid : Type} `{!GridInterface Grid}.
Implicit Types (self : @CTF Grid) (grid : Grid).

(** On a defined grid and with an energy, the body of [evaluate_on_grid]
    is [evaluate] at the polar coordinates of the grid. *)
Lemma evaluate_on_grid_body_defined self grid w kx ky :
  check_is_defined grid = true ->
  accelerator_wavelength (_accelerator self) = Some w ->
  spatial_frequencies grid = (kx, ky) ->
  evaluate_on_grid_body self grid =
    evaluate self
      (grid_alpha (map (fun k => k * w) kx) (map (fun k => k * w) ky))
      (grid_phi (map (fun k => k * w) kx) (map (fun k => k * w) ky)).
Proof.
  intros Hgrid Hw Hk. unfold evaluate_on_grid_body, wavelength.
  by rewrite Hgrid, Hw, Hk.
Qed.

(** X13.  The angle convention of the grid.  [evaluate_on_grid] hands
    [evaluate] polar coordinates in which the azimuth is counted from the
    second axis: at every grid point [alpha sin(phi)] is the scattering
    angle along x, [kx] times the wavelength, and [alpha cos(phi)] the one
    along y, the origin included. *)
Theorem grid_polar_coordinates self grid w kx ky :
  check_is_defined grid = true ->
  accelerator_wavelength (_accelerator self) = Some w ->
  spatial_frequencies grid = (kx, ky) ->
  exists alpha phi,
    evaluate_on_grid_body self grid = evaluate self alpha phi /\
    length alpha = (length kx * length ky)%nat /\
    length phi = (length kx * length ky)%nat /\
    zip_with (fun a f => a * sin f) alpha phi = outer (fun x _ => x * w) kx ky /\
    zip_with (fun a f => a * cos f) alpha phi = outer (fun _ y => y * w) kx ky.
Proof.
  intros Hgrid Hw Hk.
  exists (grid_alpha (map (fun k => k * w) kx) (map (fun k => k * w) ky)),
         (grid_phi (map (fun k => k * w) kx) (map (fun k => k * w) ky)).
  split; [by apply evaluate_on_grid_body_defined|].
  unfold grid_alpha, grid_phi. rewrite !length_outer, !length_map.
  split; [done|]. split; [done|].
  assert (forall (h : R -> R -> R),
            outer h (map (fun k => k * w) kx) (map (fun k => k * w) ky) =
            outer (fun x y => h (x * w) (y * w)) kx ky) as Hscaled.
  { intros h. unfold outer. clear. induction kx as [|x xs IH]; [done|].
    cbn [map mbind list_bind]. rewrite IH. f_equal.
    by rewrite map_map. }
  split.
  - rewrite (outer_zip_with _ _ _ (fun x _ => x)); [by rewrite Hscaled|].
    intros x y. replace (y ^ 2 + x ^ 2) with (x ^ 2 + y ^ 2) by ring. 
    rewrite Rplus_comm. apply arctan2_sin.
  - rewrite (outer_zip_with _ _ _ (fun _ y => y)); [by rewrite Hscaled|].
    intros x y. rewrite Rplus_comm. apply arctan2_cos.
Qed.

(** X14.  Evaluation on a grid cannot fail on a shape mismatch and never
    amplifies.  For a defined grid, a full store and a nonzero wavelength
    the body of [evaluate_on_grid] returns an array with one element for
    each pair of frequencies, all of modulus at most 1. *)
Theorem evaluate_on_grid_body_bounded self grid w kx ky :
  full (_parameters self) ->
  check_is_defined grid = true ->
  accelerator_wavelength (_accelerator self) = Some w -> w <> 0 ->
  spatial_frequencies grid = (kx, ky) ->
  exists out,
    evaluate_on_grid_body self grid = Ok out /\
    length out = (length kx * length ky)%nat /\
    Forall modulus_at_most_1 out.
Proof.
  intros Hfull Hgrid Hw Hnz Hk.
  rewrite (evaluate_on_grid_body_defined self grid w kx ky) by done.
  set (alpha := grid_alpha _ _). set (phi := grid_phi _ _).
  assert (length alpha = (length kx * length ky)%nat) as Halpha
    by (unfold alpha, grid_alpha; by rewrite length_outer, !length_map).
  assert (length alpha = length phi) as Hlen
    by (unfold alpha, phi, grid_alpha, grid_phi; by rewrite !length_outer).
  rewrite (evaluate_product self alpha phi w) by done.
  eexists. split; [reflexivity|].
  destruct (product_bounded self w alpha phi Hnz Hlen) as [Hl Hb].
  split; [congruence|done].
Qed.

End OnGrid.

Lemma grid_polar_coordinates_witness :
  exists alpha phi,
    evaluate_on_grid_body amplifying_ctf 0%nat = evaluate amplifying_ctf alpha phi /\
    length alpha = 1%nat /\ length phi = 1%nat /\
    zip_with (fun a f => a * sin f) alpha phi = [1 / 2 * 2] /\
    zip_with (fun a f => a * cos f) alpha phi = [0 * 2].
Proof.
  apply (grid_polar_coordinates amplifying_ctf 0%nat 2 [1 / 2] [0]); reflexivity.
Defined.

Lemma evaluate_on_grid_body_bounded_witness :
  exists out,
    evaluate_on_grid_body amplifying_ctf 0%nat = Ok out /\
    length out = 1%nat /\
    Forall modulus_at_most_1 out.
Proof.
  apply (evaluate_on_grid_body_bounded amplifying_ctf 0%nat 2 [1 / 2] [0]).
  - apply well_formed_full, well_formed_insert;
      [exact initial_parameters_well_formed | symbols_known].
  - reflexivity.
  - reflexivity.
  - lra.
  - reflexivity.
Defined.

(** ** The conversions the other way round *)

(** What [polar2cartesian(cartesian2polar(c))] holds under each of the
    twelve Cartesian names: the value of [c], 0 for a name [c] lacks. *)
Lemma cartesian_round_trip_items (cartesian : gmap string R) :
  Forall (fun key => item (polar2cartesian (cartesian2polar cartesian)) key =
                     item cartesian key) cartesian_symbols.
Proof.
  set (c := item cartesian).
  set (q := item (polar2cartesian (cartesian2polar cartesian))).
  assert (q "C10" = c "C10") as H10 by reflexivity.
  assert (q "C12a" = - - sqrt (c "C12a" ^ 2 + c "C12b" ^ 2) *
                     cos (2 * (- arctan2 (c "C12b") (c "C12a") / 2))) as H12a by reflexivity.
  assert (q "C12b" = - sqrt (c "C12a" ^ 2 + c "C12b" ^ 2) *
                     sin (2 * (- arctan2 (c "C12b") (c "C12a") / 2))) as H12b by reflexivity.
  assert (q "C21a" = sqrt (c "C21a" ^ 2 + c "C21b" ^ 2) *
                     sin (arctan2 (c "C21a") (c "C21b"))) as H21a by reflexivity.
  assert (q "C21b" = sqrt (c "C21a" ^ 2 + c "C21b" ^ 2) *
                     cos (arctan2 (c "C21a") (c "C21b"))) as H21b by reflexivity.
  assert (q "C23a" = - sqrt (c "C23a" ^ 2 + c "C23b" ^ 2) *
                     sin (3 * (- arctan2 (c "C23a") (c "C23b") / 3))) as H23a by reflexivity.
  assert (q "C23b" = sqrt (c "C23a" ^ 2 + c "C23b" ^ 2) *
                     cos (3 * (- arctan2 (c "C23a") (c "C23b") / 3))) as H23b by reflexivity.
  assert (q "C30" = c "C30") as H30 by reflexivity.
  assert (q "C32a" = - - sqrt (c "C32a" ^ 2 + c "C32b" ^ 2) *
                     cos (2 * (- arctan2 (c "C32b") (c "C32a") / 2))) as H32a by reflexivity.
  assert (q "C32b" = - sqrt (c "C32a" ^ 2 + c "C32b" ^ 2) *
                     cos (PI / 2 - 2 * (- arctan2 (c "C32b") (c "C32a") / 2)))
    as H32b by reflexivity.
  assert (q "C34a" = sqrt (c "C34a" ^ 2 + c "C34b" ^ 2) *
                     cos (-4 * (arctan2 (c "C34b") (c "C34a") / 4))) as H34a by reflexivity.
  assert (q "C34b" = 1 / 4 * (1 + K ^ 2) ^ 2 / (K ^ 3 - K) *
                     sqrt (c "C34a" ^ 2 + c "C34b" ^ 2) *
                     cos (4 * atan (1 / K) - 4 * (arctan2 (c "C34b") (c "C34a") / 4)))
    as H34b by reflexivity.
  assert (forall t, 2 * (- t / 2) = - t) as Hhalf by (intros t; field).
  assert (forall t, 3 * (- t / 3) = - t) as Hthird by (intros t; field).
  assert (forall t, -4 * (t / 4) = - t) as Hfourth by (intros t; field).
  assert (forall t, 4 * (t / 4) = t) as Hfourth' by (intros t; field).
  unfold cartesian_symbols. repeat apply Forall_cons_2; try apply Forall_nil_2.
  - exact H10.
  - rewrite H12a, Hhalf, cos_neg, Ropp_involutive. apply arctan2_cos.
  - rewrite H12b, Hhalf, sin_neg.
    rewrite Ropp_mult_distr_l_reverse, Ropp_mult_distr_r_reverse, Ropp_involutive.
    apply arctan2_sin.
  - rewrite H21a, Rplus_comm. apply arctan2_sin.
  - rewrite H21b, Rplus_comm. apply arctan2_cos.
  - rewrite H23a, Hthird, sin_neg.
    rewrite Ropp_mult_distr_l_reverse, Ropp_mult_distr_r_reverse, Ropp_involutive.
    rewrite Rplus_comm. apply arctan2_sin.
  - rewrite H23b, Hthird, cos_neg, Rplus_comm. apply arctan2_cos.
  - exact H30.
  - rewrite H32a, Hhalf, cos_neg, Ropp_involutive. apply arctan2_cos.
  - rewrite H32b, cos_shift, Hhalf, sin_neg.
    rewrite Ropp_mult_distr_l_reverse, Ropp_mult_distr_r_reverse, Ropp_involutive.
    apply arctan2_sin.
  - rewrite H34a, Hfourth, cos_neg. apply arctan2_cos.
  - rewrite H34b, K_factor, K_angle, cos_shift, Hfourth', Rmult_1_l. apply arctan2_sin.
Qed.

Lemma polar2cartesian_dom (polar : gmap string R) :
  dom (polar2cartesian polar) = list_to_set cartesian_symbols.
Proof.
  unfold polar2cartesian. cbv zeta. rewrite !dom_insert_L, dom_empty_L.
  apply (bool_decide_unpack _). vm_compute. exact I.
Qed.

Lemma polar2cartesian_lookup (polar : gmap string R) (key : string) :
  polar2cartesian polar !! key =
    if decide (key ∈ cartesian_symbols)
    then Some (item (polar2cartesian polar) key) else None.
Proof.
  destruct (decide (key ∈ cartesian_symbols)) as [Hin|Hout].
  - assert (is_Some (polar2cartesian polar !! key)) as [x Hx].
    { apply elem_of_dom. rewrite polar2cartesian_dom. by apply elem_of_list_to_set. }
    unfold item. by rewrite Hx.
  - apply not_elem_of_dom. rewrite polar2cartesian_dom. by rewrite elem_of_list_to_set.
Qed.

(** [cartesian2polar] reads its argument under the twelve Cartesian names
    only. *)
Lemma cartesian2polar_reads (c c' : gmap string R) :
  Forall (fun key => item c key = item c' key) cartesian_symbols ->
  cartesian2polar c = cartesian2polar c'.
Proof.
  intros Hsame. unfold cartesian_symbols in Hsame.
  repeat (apply Forall_cons in Hsame as [? Hsame]).
  unfold cartesian2polar. cbv zeta. congruence.
Qed.

(** X15.  The conversions are exact inverses on the Cartesian side.
    [polar2cartesian(cartesian2polar(c))] holds, under each of the twelve
    Cartesian names, exactly the value [c] has there (0 for a name [c]
    lacks), and holds nothing under any other name. *)
Theorem cartesian_round_trip (cartesian : gmap string R) (key : string) :
  polar2cartesian (cartesian2polar cartesian) !! key =
    if decide (key ∈ cartesian_symbols) then Some (item cartesian key) else None.
Proof.
  rewrite polar2cartesian_lookup.
  destruct (decide (key ∈ cartesian_symbols)) as [Hin|_]; [|done].
  pose proof (cartesian_round_trip_items cartesian) as Hitems.
  rewrite Forall_forall in Hitems. by rewrite (Hitems key Hin).
Qed.

(** X16.  A mapping with exactly the twelve Cartesian names is returned
    unchanged by [polar2cartesian(cartesian2polar(c))]. *)
Theorem cartesian_round_trip_identity (cartesian : gmap string R) :
  dom cartesian = list_to_set cartesian_symbols ->
  polar2cartesian (cartesian2polar cartesian) = cartesian.
Proof.
  intros Hdom. apply map_eq. intros key. rewrite polar2cartesian_lookup.
  destruct (decide (key ∈ cartesian_symbols)) as [Hin|Hout].
  - pose proof (cartesian_round_trip_items cartesian) as Hitems.
    rewrite Forall_forall in Hitems. rewrite (Hitems key Hin).
    assert (is_Some (cartesian !! key)) as [x Hx].
    { apply elem_of_dom. rewrite Hdom. by apply elem_of_list_to_set. }
    unfold item. by rewrite Hx.
  - symmetry. apply not_elem_of_dom. rewrite Hdom. by rewrite elem_of_list_to_set.
Qed.

Lemma cartesian_round_trip_identity_witness :
  polar2cartesian (cartesian2polar (polar2cartesian (<["C12" := 1]> ∅))) =
  polar2cartesian (<["C12" := 1]> ∅).
Proof.
  apply (cartesian_round_trip_identity (polar2cartesian (<["C12" := 1]> ∅))).
  apply polar2cartesian_dom.
Defined.

(** X17.  The polar form [cartesian2polar] returns is a fixed point of
    the round trip: converting it to Cartesian form and back returns it
    unchanged, magnitudes, signs and angles.  So the round trip of the
    polar coefficients changes a mapping at most once. *)
Theorem polar_round_trip_fixed_point (cartesian : gmap string R) :
  cartesian2polar (polar2cartesian (cartesian2polar cartesian)) =
  cartesian2polar cartesian.
Proof. apply cartesian2polar_reads, cartesian_round_trip_items. Qed.

(** ** Writing and reading the coefficients *)

Lemma apply_entries_untouched entries store key :
  Forall (fun entry => canonical entry.1 <> Some key) entries ->
  foldl apply_entry store entries !! key = store !! key.
Proof.
  intros Hall. revert store.
  induction Hall as [|entry entries Hentry _ IH]; intros store; simpl; [done|].
  rewrite IH. unfold apply_entry.
  destruct (canonical entry.1) as [target|]; [|done].
  apply lookup_insert_ne. congruence.
Qed.

(** The store the loop leaves, whether it ends or raises, is the initial
    one with some of the entries applied. *)
Lemma set_parameters_loop_applied parameters store :
  well_formed store ->
  exists applied,
    applied `prefix_of` parameters /\
    (set_parameters_loop store parameters).1 = foldl apply_entry store applied.
Proof.
  revert store. induction parameters as [|[symbol value] rest IH]; intros store Hwf.
  - by exists [].
  - simpl. pose proof (set_parameter_spec store symbol value Hwf) as Hstep.
    destruct (canonical symbol); rewrite Hstep.
    + destruct (IH (apply_entry store (symbol, value))) as (applied & Hprefix & ->);
        [by apply apply_entry_well_formed|].
      exists ((symbol, value) :: applied). split; [by apply prefix_cons|done].
    + exists []. split; [apply prefix_nil|done].
Qed.


Lemma set_parameters_loop_first_unknown parameters store :
  well_formed store ->
  set_parameters_loop store parameters =
    match first_unknown parameters with
    | None => (foldl apply_entry store parameters, Ok tt)
    | Some symbol => ((set_parameters_loop store parameters).1,
                      Raise (ValueError (not_recognized symbol)))
    end.
Proof.
  revert store. induction parameters as [|[symbol value] rest IH]; intros store Hwf; [done|].
  simpl. pose proof (set_parameter_spec store symbol value Hwf) as Hstep.
  destruct (canonical symbol); rewrite Hstep; [|done].
  rewrite (IH (apply_entry store (symbol, value))) by (by apply apply_entry_well_formed).
  by destruct (first_unknown rest).
Qed.

Section Coefficients.

Context {Grid : Type} `{!GridInterface Grid}.
Implicit Types (self : @CTF Grid).

Lemma notify_frame self notifier change :
  _parameters (notify self notifier change) = _parameters self /\
  _notify_count (changed (notify self notifier change)) = S (_notify_count (changed self)) /\
  _accelerator (notify self notifier change) = _accelerator self.
Proof.
  unfold notify.
  set (counted := with_changed self _).
  assert (forall (cbs : list callback) (s : @CTF Grid),
            let s' := foldl (fun self cb => run_callback cb self notifier change) s cbs in
            _parameters s' = _parameters s /\ changed s' = changed s /\
            _accelerator s' = _accelerator s) as Hframe.
  { induction cbs as [|[] cbs IH]; intros s; simpl; [done|].
    destruct (IH (with_cache s (cache_clear (cache s)))) as (-> & -> & ->). done. }
  destruct (Hframe (callbacks (changed self)) counted) as (-> & -> & ->). done.
Qed.

(** X18.  The last write wins.  When every name of the mapping is
    recognized, [set_parameters] returns the mapping, and the coefficient
    an entry names (directly or through an alias) then reads as the value
    of that entry, negated for [defocus], provided no later entry names
    the same coefficient. *)
Theorem set_parameters_last_write self before symbol value after key :
  well_formed (_parameters self) ->
  Forall (fun entry => is_Some (canonical entry.1)) (before ++ (symbol, value) :: after) ->
  canonical symbol = Some key ->
  Forall (fun entry => canonical entry.1 <> Some key) after ->
  exists self',
    set_parameters self (before ++ (symbol, value) :: after) =
      (self', Ok (before ++ (symbol, value) :: after)) /\
    parametrization_getter key self' = Ok (stored_value symbol value).
Proof.
  intros Hwf Hall Hkey Hafter. eexists. split.
  - by apply set_parameters_recognized.
  - unfold parametrization_getter. simpl.
    rewrite foldl_app. simpl. rewrite apply_entries_untouched by done.
    unfold apply_entry. simpl. rewrite Hkey. by rewrite lookup_insert_eq.
Qed.

(** X19.  [set_parameters] touches only the coefficients its mapping
    names: every other entry of the store is what it was, whether the
    call returns or raises. *)
Theorem set_parameters_untouched self parameters key :
  well_formed (_parameters self) ->
  Forall (fun entry => canonical entry.1 <> Some key) parameters ->
  _parameters (set_parameters self parameters).1 !! key = _parameters self !! key.
Proof.
  intros Hwf Hall. unfold set_parameters.
  destruct (set_parameters_loop_applied parameters (_parameters self) Hwf)
    as (applied & [rest ->] & Hstore).
  destruct (set_parameters_loop (_parameters self) (applied ++ rest)) as [store outcome].
  simpl in *. subst store. apply apply_entries_untouched.
  by apply Forall_app in Hall as [Hall _].
Qed.


(** X21.  The two ways of setting the defocus agree on the store.
    Assigning [defocus = v] and calling [set_parameters({'defocus': v})]
    both store [-v] under C10, and the [defocus] property then reads [v]
    after either. *)
Theorem defocus_round_trip self value :
  well_formed (_parameters self) ->
  exists self1 self2,
    set_defocus self value = (self1, Ok tt) /\
    set_parameters self [("defocus", value)] = (self2, Ok [("defocus", value)]) /\
    _parameters self1 = _parameters self2 /\
    _parameters self1 !! "C10" = Some (- value) /\
    defocus self1 = Ok value /\
    defocus self2 = Ok value.
Proof.
  intros Hwf.
  assert (is_Some (_parameters self !! "C10")) as [old Hold]
    by (apply well_formed_lookup; [done|symbols_known]).
  assert (canonical "defocus" = Some "C10") as Hcanonical by reflexivity.
  rewrite (set_parameters_recognized self [("defocus", value)] Hwf)
    by (constructor; [cbn [fst]; by rewrite Hcanonical|constructor]).
  unfold set_defocus, watched_property, defocus at 1, parametrization_getter.
  rewrite Hold. cbv beta iota delta [mbind result_bind mret result_ret].
  eexists _, _. split; [reflexivity|]. split; [reflexivity|].
  set (written := with_parameters self _).
  destruct (notify_frame written "defocus" (bool_decide (- old <> value)))
    as (Hstore & _ & _).
  unfold defocus, parametrization_getter. rewrite Hstore.
  assert (_parameters written = <["C10" := - value]> (_parameters self)) as ->
    by reflexivity.
  rewrite lookup_insert_eq. cbv beta iota delta [mbind result_bind mret result_ret].
  by rewrite Ropp_involutive.
Qed.

(** X22.  What is written through a coefficient property or an alias is
    read back through the coefficient.  For an attribute bound to the
    coefficient [key] (the symbol itself, or an alias such as [Cs] for
    C30), the assignment succeeds, the coefficient then reads as the value
    assigned, no other entry of the store changes, and the observers are
    notified once. *)
Theorem property_write_read self name key value :
  well_formed (_parameters self) ->
  installed_property name = Some key ->
  exists self',
    mutate self (SetProperty name value) = (self', Ok tt) /\
    parametrization_getter key self' = Ok value /\
    (forall other, other <> key -> _parameters self' !! other = _parameters self !! other) /\
    _notify_count (changed self') = S (_notify_count (changed self)).
Proof.
  intros Hwf Hname.
  assert (name <> "defocus") as Hnot by (by intros ->).
  assert (is_Some (_parameters self !! key)) as [old Hold].
  { apply well_formed_lookup; [done|]. by eapply installed_property_symbol. }
  simpl. destruct (decide (name = "defocus")); [done|]. rewrite Hname.
  unfold parametrization_setter, parametrization_getter at 1. rewrite Hold.
  eexists. split; [reflexivity|].
  set (written := with_parameters self _).
  destruct (notify_frame written key (bool_decide (old <> value))) as (Hstore & Hcount & _).
  unfold parametrization_getter. rewrite Hstore, Hcount.
  assert (_parameters written = <[key := value]> (_parameters self)) as -> by reflexivity.
  rewrite lookup_insert_eq. split; [done|]. split; [|done].
  intros other Hother. by apply lookup_insert_ne.
Qed.


(** X25.  [__init__] builds an object exactly when every name of its
    mapping is a coefficient or an alias.  It then has the settings it was
    given, an empty cache for one array, no notification counted, the
    cache-clearing observer as its only one, and the store of zeros with
    the entries applied in order; otherwise it raises the [ValueError] of
    the first unknown name. *)
Theorem CTF_init_outcome cutoff rolloff focal_spread angular_spread gaussian_spread
    wavelength parameters :
  CTF_init cutoff rolloff focal_spread angular_spread gaussian_spread wavelength parameters =
    match first_unknown parameters return result (@CTF Grid) with
    | None =>
        Ok (mkCTF (mkEvent [cache_clear_callback] 0) (mkCache 1 [])
              (mkAccelerator wavelength) cutoff rolloff focal_spread angular_spread
              gaussian_spread (foldl apply_entry initial_parameters parameters))
    | Some symbol => Raise (ValueError (not_recognized symbol))
    end.
Proof.
  unfold CTF_init, set_parameters. cbn [_parameters].
  rewrite (set_parameters_loop_first_unknown parameters initial_parameters
             initial_parameters_well_formed).
  by destruct (first_unknown parameters).
Qed.

End Coefficients.

Lemma set_parameters_last_write_witness :
  exists self',
    set_parameters example_ctf [("defocus", 1); ("Cs", 3); ("C10", 2)] =
      (self', Ok [("defocus", 1); ("Cs", 3); ("C10", 2)]) /\
    parametrization_getter "C30" self' = Ok 3.
Proof.
  apply (set_parameters_last_write example_ctf [("defocus", 1)] "Cs" 3 [("C10", 2)] "C30").
  - exact initial_parameters_well_formed.
  - repeat constructor; by eexists.
  - reflexivity.
  - repeat constructor; by intros [=].
Defined.

Lemma set_parameters_untouched_witness :
  _parameters (set_parameters example_ctf [("Cs", 3); ("spherical", 2)]).1 !! "C10" =
  _parameters example_ctf !! "C10".
Proof.
  apply (set_parameters_untouched example_ctf [("Cs", 3); ("spherical", 2)] "C10").
  - exact initial_parameters_well_formed.
  - repeat constructor; by intros [=].
Defined.

Lemma defocus_round_trip_witness :
  exists self1 self2,
    set_defocus example_ctf 5 = (self1, Ok tt) /\
    set_parameters example_ctf [("defocus", 5)] = (self2, Ok [("defocus", 5)]) /\
    _parameters self1 = _parameters self2 /\
    _parameters self1 !! "C10" = Some (- 5) /\
    defocus self1 = Ok 5 /\
    defocus self2 = Ok 5.
Proof.
  apply (defocus_round_trip example_ctf 5). exact initial_parameters_well_formed.
Defined.

Lemma property_write_read_witness :
  exists self',
    mutate example_ctf (SetProperty "Cs" 3) = (self', Ok tt) /\
    parametrization_getter "C30" self' = Ok 3 /\
    (forall other, other <> "C30" ->
       _parameters self' !! other = _parameters example_ctf !! other) /\
    _notify_count (changed self') = 1%nat.
Proof.
  apply (property_write_read example_ctf "Cs" "C30" 3).
  - exact initial_parameters_well_formed.
  - reflexivity.
Defined.


(** ** The invariant and the cache, on a concrete object *)

Lemma reachable_constructed_witness :
  constructed (mutate example_ctf (SetProperty "Cs" 3)).1.
Proof.
  apply (reachable_constructed (mutate example_ctf (SetProperty "Cs" 3)).1).
  apply (reachable_mutate example_ctf (SetProperty "Cs" 3) _
           (mutate example_ctf (SetProperty "Cs" 3)).2).
  - eapply reachable_init. exact example_ctf_init.
  - apply surjective_pairing.
Defined.

(** ** Scherzer defocus *)

Lemma sign_times (x : R) : sign x * x = Rabs x.
Proof.
  unfold sign. destruct (decide (x < 0)) as [Hneg|Hnn].
  - rewrite Rabs_left by done. ring.
  - apply Rnot_lt_le in Hnn. rewrite Rabs_right by lra.
    destruct (decide (x = 0)) as [->|_]; ring.
Qed.

Lemma sign_opp (x : R) : sign (- x) = - sign x.
Proof.
  unfold sign.
  destruct (decide (- x < 0)), (decide (x < 0)), (decide (- x = 0)), (decide (x = 0));
    lra.
Qed.

(** X27.  The Scherzer defocus has the sign of [Cs], and its square is
    1.44 times [|Cs|] times the wavelength, whenever the wavelength of
    the energy is not negative; it is 0 for [Cs = 0]. *)
Theorem scherzer_defocus_value (energy2wavelength : R -> R) (Cs energy : R) :
  0 <= energy2wavelength energy ->
  exists d,
    scherzer_defocus energy2wavelength Cs energy = Some d /\
    d ^ 2 = 1.44 * Rabs Cs * energy2wavelength energy /\
    0 <= d * Cs /\
    (Cs = 0 -> d = 0).
Proof.
  intros Hw. unfold scherzer_defocus. cbv zeta.
  pose proof (Rabs_pos Cs) as Habs.
  assert (0 <= Rabs Cs * energy2wavelength energy) as Hradicand by nra.
  destruct (decide (Rabs Cs * energy2wavelength energy < 0)) as [|_]; [lra|].
  eexists. split; [reflexivity|].
  set (root := sqrt (Rabs Cs * energy2wavelength energy)).
  assert (root * root = Rabs Cs * energy2wavelength energy) as Hroot
    by (by apply sqrt_sqrt).
  assert (0 <= root) as Hpos by apply sqrt_pos.
  split_and!.
  - destruct (decide (Cs = 0)) as [->|Hnz].
    + rewrite Rabs_R0 in *. unfold sign.
      destruct (decide (0 < 0)); [lra|]. destruct (decide (0 = 0)); [|done]. lra.
    + assert (sign Cs ^ 2 = 1) as Hsign.
      { unfold sign. destruct (decide (Cs < 0)); [lra|].
        destruct (decide (Cs = 0)); [done|]. lra. }
      replace ((1.2 * sign Cs * root) ^ 2) with (1.44 * sign Cs ^ 2 * (root * root)) by lra.
      rewrite Hsign, Hroot. lra.
  - replace (1.2 * sign Cs * root * Cs) with (1.2 * root * (sign Cs * Cs)) by lra.
    rewrite sign_times. apply Rmult_le_pos; [lra|done].
  - intros ->. unfold sign. destruct (decide (0 < 0)); [lra|].
    destruct (decide (0 = 0)); [|done]. lra.
Qed.

Lemma scherzer_defocus_value_witness :
  exists d,
    scherzer_defocus (fun energy => 1 / energy) 2 1 = Some d /\
    d ^ 2 = 1.44 * Rabs 2 * (1 / 1) /\
    0 <= d * 2 /\
    (2 = 0 -> d = 0).
Proof.
  apply (scherzer_defocus_value (fun energy => 1 / energy) 2 1). lra.
Defined.

(** X28.  The Scherzer defocus is odd in [Cs]: negating [Cs] negates the
    defocus, and leaves it undefined where it was. *)
Theorem scherzer_defocus_odd (energy2wavelength : R -> R) (Cs energy : R) :
  scherzer_defocus energy2wavelength (- Cs) energy =
    Ropp <$> scherzer_defocus energy2wavelength Cs energy.
Proof.
  unfold scherzer_defocus. cbv zeta. rewrite Rabs_Ropp, sign_opp.
  destruct (decide (Rabs Cs * energy2wavelength energy < 0)); [done|].
  simpl. f_equal. ring.
Qed.

(** ** A mapping without phi45 *)

Lemma require_present parameters keys :
  Forall (fun key => is_Some (parameters !! key)) keys -> require parameters keys = Ok tt.
Proof.
  induction 1 as [|key keys [v Hkey] _ IH]; simpl; [done|]. by rewrite Hkey.
Qed.

Lemma order_group_present parameters tested used term alpha phi array :
  Forall (fun key => is_Some (parameters !! key)) tested ->
  Forall (fun key => is_Some (parameters !! key)) used ->
  (Forall (fun symbol => item parameters symbol = 0) tested -> forall a f, term a f = 0) ->
  length array = length alpha -> length alpha = length phi ->
  order_group parameters tested used term alpha phi array =
    Ok (add_term array term alpha phi).
Proof.
  intros Htested Hused Hzero Hlen1 Hlen2. unfold order_group, any_nonzero.
  rewrite (require_present parameters tested) by done.
  cbv beta iota delta [mbind result_bind mret result_ret].
  destruct (existsb _ tested) eqn:Hany.
  - by rewrite (require_present parameters used).
  - f_equal. symmetry. apply zip_with_zeros; try done.
    apply Hzero. by apply existsb_nonzero_false.
Qed.

(** X29.  The key phi45 is read only when the fourth-order group is
    computed, and the test of that group does not read it.  On a mapping
    that has every symbol but phi45, [calculate_polar_chi] returns the
    expansion when C41, phi41, C43, phi43 and C45 are all zero, and raises
    [KeyError('phi45')] as soon as one of them is not. *)
Theorem polar_chi_without_phi45 alpha phi wavelength parameters :
  (forall key, key ∈ polar_symbols -> key <> "phi45" -> is_Some (parameters !! key)) ->
  parameters !! "phi45" = None ->
  length alpha = length phi -> wavelength <> 0 ->
  calculate_polar_chi alpha phi wavelength parameters =
    if decide (Forall (fun key => item parameters key = 0)
                 ["C41"; "phi41"; "C43"; "phi43"; "C45"])
    then Ok (zip_with (polar_chi_at (item parameters) (2 * PI / wavelength)) alpha phi)
    else Raise (KeyError "phi45").
Proof.
  intros Hpresent Hmissing Hlen Hw.
  assert (forall keys,
            Forall (fun key => key ∈ polar_symbols /\ key <> "phi45") keys ->
            Forall (fun key => is_Some (parameters !! key)) keys) as Hkeys.
  { intros keys Hall. eapply Forall_impl; [exact Hall|].
    intros key [Hin Hne]. by apply Hpresent. }
  unfold calculate_polar_chi. cbv zeta.
  rewrite (replicate_zip_with _ alpha phi Hlen).
  rewrite order_group_present;
    [ cbv beta iota delta [mbind result_bind]; rewrite add_term_zip_with
    | apply Hkeys; repeat constructor; first [symbols_known | discriminate]
    | apply Hkeys; repeat constructor; first [symbols_known | discriminate]
    | let H := fresh "H" in
      intros H ? ?; unfold order1; cbv zeta; zero_symbols H; ring
    | rewrite length_zip_with; lia
    | assumption ].
  rewrite order_group_present;
    [ cbv beta iota delta [mbind result_bind]; rewrite add_term_zip_with
    | apply Hkeys; repeat constructor; first [symbols_known | discriminate]
    | apply Hkeys; repeat constructor; first [symbols_known | discriminate]
    | let H := fresh "H" in
      intros H ? ?; unfold order2; cbv zeta; zero_symbols H; ring
    | rewrite length_zip_with; lia
    | assumption ].
  rewrite order_group_present;
    [ cbv beta iota delta [mbind result_bind]; rewrite add_term_zip_with
    | apply Hkeys; repeat constructor; first [symbols_known | discriminate]
    | apply Hkeys; repeat constructor; first [symbols_known | discriminate]
    | let H := fresh "H" in
      intros H ? ?; unfold order3; cbv zeta; zero_symbols H; ring
    | rewrite length_zip_with; lia
    | assumption ].
  assert (Forall (fun key => is_Some (parameters !! key))
            ["C41"; "phi41"; "C43"; "phi43"; "C45"; "phi41"]) as Htested
    by (apply Hkeys; repeat constructor; first [symbols_known | discriminate]).
  unfold order_group at 1. unfold any_nonzero at 1.
  rewrite (require_present parameters ["C41"; "phi41"; "C43"; "phi43"; "C45"; "phi41"])
    by exact Htested.
  cbv beta iota delta [mbind result_bind mret result_ret].
  destruct (existsb _ ["C41"; "phi41"; "C43"; "phi43"; "C45"; "phi41"]) eqn:Hany.
  - destruct (decide (Forall (fun key => item parameters key = 0)
                        ["C41"; "phi41"; "C43"; "phi43"; "C45"])) as [Hzero|_].
    + rewrite existsb_nonzero_zero in Hany; [done|].
      repeat (apply Forall_cons in Hzero as [? Hzero]). by repeat constructor.
    + repeat (apply Forall_cons in Htested as [[? ?] Htested]).
      cbn [require]. by repeat match goal with H : _ !! _ = Some _ |- _ => rewrite H; clear H end;
        rewrite Hmissing.
  - apply existsb_nonzero_false in Hany.
    destruct (decide (Forall (fun key => item parameters key = 0)
                        ["C41"; "phi41"; "C43"; "phi43"; "C45"])) as [Hzero|Hnonzero].
    2:{ destruct Hnonzero. repeat (apply Forall_cons in Hany as [? Hany]).
        by repeat constructor. }
    rewrite order_group_present;
      [ cbv beta iota delta [mbind result_bind]; rewrite add_term_zip_with
      | apply Hkeys; repeat constructor; first [symbols_known | discriminate]
      | apply Hkeys; repeat constructor; first [symbols_known | discriminate]
      | let H := fresh "H" in
        intros H ? ?; unfold order5; cbv zeta; zero_symbols H; ring
      | rewrite length_zip_with; lia
      | assumption ].
    unfold divide. destruct (decide (wavelength = 0)) as [|_]; [done|].
    cbv beta iota delta [mbind result_bind mret result_ret].
    f_equal. unfold polar_chi_at.
    assert (forall a f, order4 (item parameters) a f = 0) as Hfourth.
    { intros a f. unfold order4. cbv zeta.
      repeat (apply Forall_cons in Hzero as [? Hzero]).
      repeat match goal with E : item _ _ = 0 |- _ => rewrite E; clear E end. ring. }
    clear - Hlen Hfourth. revert phi Hlen.
    induction alpha as [|a alpha IH]; intros [|f phi]; simpl; try done.
    intros [= Hlen]. rewrite IH by done. f_equal. rewrite Hfourth. ring.
Qed.

Lemma polar_chi_without_phi45_witness :
  calculate_polar_chi [1] [0] 2 (delete "phi45" (<["C45" := 1]> initial_parameters)) =
    if decide (Forall (fun key =>
                         item (delete "phi45" (<["C45" := 1]> initial_parameters)) key = 0)
                 ["C41"; "phi41"; "C43"; "phi43"; "C45"])
    then Ok (zip_with (polar_chi_at
                         (item (delete "phi45" (<["C45" := 1]> initial_parameters)))
                         (2 * PI / 2)) [1] [0])
    else Raise (KeyError "phi45").
Proof.
  apply (polar_chi_without_phi45 [1] [0] 2
           (delete "phi45" (<["C45" := 1]> initial_parameters))).
  - intros key Hkey Hne. rewrite lookup_delete_ne by done.
    apply well_formed_lookup; [|done].
    apply well_formed_insert; [exact initial_parameters_well_formed | symbols_known].
  - apply lookup_delete_eq.
  - reflexivity.
  - lra.
Defined.

(** ** The symmetric aberrations *)

(** X30.  For a full mapping and a nonzero wavelength
    [calculate_symmetric_aberrations] returns, element by element, a
    number of modulus 1 that is exactly 1 on the optical axis, where
    [alpha] is 0. *)
Theorem symmetric_aberrations_on_axis alpha wavelength parameters :
  full parameters -> wavelength <> 0 ->
  exists out,
    calculate_symmetric_aberrations alpha wavelength parameters = Ok out /\
    Forall2 (fun a z => unit_modulus z /\ (a = 0 -> z = Complex 1 0)) alpha out.
Proof.
  intros Hfull Hw. unfold calculate_symmetric_aberrations.
  rewrite calculate_symmetric_chi_elements by done.
  unfold divide. destruct (decide (wavelength = 0)) as [|_]; [done|].
  cbv beta iota delta [mbind result_bind mret result_ret].
  eexists. split; [reflexivity|].
  induction alpha as [|a alpha IH]; cbn [map complex_exponential]; constructor; [|exact IH].
  split.
  - unfold unit_modulus. cbn [re im].
    pose proof (sin2_cos2 (- (2 * PI / wavelength *
      (1 / 2 * a ^ 2 * item parameters "C10" + 1 / 4 * (a ^ 2) ^ 2 * item parameters "C30" +
       1 / 6 * (a ^ 2) ^ 3 * item parameters "C50")))) as Hunit.
    unfold Rsqr in Hunit. lra.
  - intros ->.
    replace (- (2 * PI / wavelength *
      (1 / 2 * 0 ^ 2 * item parameters "C10" + 1 / 4 * (0 ^ 2) ^ 2 * item parameters "C30" +
       1 / 6 * (0 ^ 2) ^ 3 * item parameters "C50"))) with 0 by (by field).
    by rewrite cos_0, sin_0.
Qed.

Lemma symmetric_aberrations_on_axis_witness :
  exists out,
    calculate_symmetric_aberrations [0; 1] 2 (<["C30" := 1]> initial_parameters) = Ok out /\
    Forall2 (fun a z => unit_modulus z /\ (a = 0 -> z = Complex 1 0)) [0; 1] out.
Proof.
  apply (symmetric_aberrations_on_axis [0; 1] 2 (<["C30" := 1]> initial_parameters)).
  - apply well_formed_full, well_formed_insert;
      [exact initial_parameters_well_formed | symbols_known].
  - lra.
Defined.
